(** * Cadence quantizer: annotation pass of [backends/cadence/aot/quantizer/quantizer.py]

    A shallow embedding of the quantization-annotation pass and of the
    default configuration, with the properties of the pass stated and
    proved over it.  Node metadata is a mutable store in the source; here
    it is threaded explicitly, and a Python exception is a result that
    carries the store as it was when the exception left the pass.
    Annotation records are objects: a node's metadata holds a reference to
    one, two nodes may hold the same one, and the pass updates the input
    map of an existing record in place. *)

From stdpp Require Import gmap strings list fin_maps.
From Stdlib Require Import ZArith.

Open Scope Z_scope.

(** ** Data model *)

(** An [fx.Node] object is named by an opaque handle. *)
Definition node_id := positive.

(** One positional argument of a node: a producer node or an immediate. *)
Inductive Argument :=
  | ArgNode (n : node_id)
  | ArgConst (c : Z).
Arguments ArgNode n%_positive.

#[global] Instance Argument_eq_dec : EqDecision Argument.
Proof. solve_decision. Defined.

#[global] Instance Argument_countable : Countable Argument.
Proof.
  refine (inj_countable'
            (fun a => match a with ArgNode n => inl n | ArgConst c => inr c end)
            (fun s => match s with inl n => ArgNode n | inr c => ArgConst c end) _).
  by intros [].
Defined.

Inductive torch_dtype := uint8 | int8 | int32 | float32.

Inductive torch_qscheme :=
  | per_tensor_affine
  | per_tensor_symmetric
  | per_channel_affine
  | per_channel_symmetric.

(** Observer constructors.  [HistogramObserver.with_args(eps=2**e)] keeps
    the exponent [e]. *)
Inductive ObserverCtr :=
  | HistogramObserver_with_args (eps_log2 : Z)
  | MinMaxObserver.

Record QuantizationSpec := {
  dtype : torch_dtype;
  quant_min : Z;
  quant_max : Z;
  qscheme : torch_qscheme;
  is_dynamic : bool;
  observer_or_fake_quant_ctr : ObserverCtr;
}.

(** A spec derived from the parameters of other edges; the deriving
    function is kept as a tag. *)
Record DerivedQuantizationSpec := {
  derived_from : list (Argument * node_id);
  derive_qparams_fn : nat;
  derived_dtype : torch_dtype;
  derived_quant_min : Z;
  derived_quant_max : Z;
  derived_qscheme : torch_qscheme;
}.

Inductive QuantizationSpecBase :=
  | QSpec (s : QuantizationSpec)
  | QDerived (d : DerivedQuantizationSpec).

(** The contents of the record stored under ["quantization_annotation"]
    in a node's metadata.  A key mapped to [None] is a present entry of
    the dict.  The input map is part of its record: every record has a
    dict of its own, as the default factory of the dataclass builds it. *)
Record QuantizationAnnotation := {
  input_qspec_map : gmap Argument (option QuantizationSpecBase);
  output_qspec : option QuantizationSpecBase;
  _annotated : bool;
}.

Record QuantizationConfig := {
  input_activation : option QuantizationSpec;
  output_activation : option QuantizationSpec;
  weight : option QuantizationSpec;
  bias : option QuantizationSpec;
}.

(** The identity of a [QuantizationAnnotation] object. *)
Definition obj_id := positive.

(** A node: operator kind, ordered arguments, consumers, and its metadata
    dict split into the annotation key, which holds a reference to a
    record, and every other key. *)
Record Node := {
  target : string;
  args : list Argument;
  users : list node_id;
  meta_quantization_annotation : option obj_id;
  meta_other : gmap string Z;
}.

(** The graph with its node objects and the annotation records they
    refer to. *)
Record GraphModule := {
  graph_nodes : list node_id;
  heap : gmap node_id Node;
  objects : gmap obj_id QuantizationAnnotation;
}.

(** A matched group of nodes with its designated output. *)
Record Partition := {
  part_nodes : list node_id;
  part_output : node_id;
}.

(** Anchor entries are the tuples [(node, idx, *custom_spec)] and
    [(output, *custom_spec)] of the source. *)
Definition InputAnchor : Type := node_id * Z * list QuantizationSpecBase.
Definition OutputAnchor : Type := node_id * list QuantizationSpecBase.

Record PartitionAnchors := {
  inputs : list InputAnchor;
  weights : list InputAnchor;
  biases : list InputAnchor;
  output : list OutputAnchor;
}.

(** The interface of [QuantizationPattern]. *)
Class QuantizationPattern (P : Type) := {
  partition_types : P -> list string;
  get_anchors : P -> GraphModule -> Partition -> option PartitionAnchors;
}.

Record CadenceAtenQuantizer (P : Type) := {
  pattern : P;
  quantization_config : QuantizationConfig;
}.
Arguments pattern {P} _.
Arguments quantization_config {P} _.

Inductive Exn := IndexError.

(** Outcome of a pass over the store: it returns, or an exception leaves
    it with the writes made so far. *)
Inductive result :=
  | Ok (g : GraphModule)
  | Raise (e : Exn) (g : GraphModule).

Definition store (r : result) : GraphModule :=
  match r with Ok g => g | Raise _ g => g end.

Definition bind (r : result) (k : GraphModule -> result) : result :=
  match r with Ok g => k g | Raise e g => Raise e g end.

Notation "r >>> k" := (bind r k) (at level 50, left associativity).

(** ** Default configuration *)

Definition act_qspec : QuantizationSpec := {|
  dtype := uint8;
  quant_min := 0;
  quant_max := 255;
  qscheme := per_tensor_affine;
  is_dynamic := false;
  observer_or_fake_quant_ctr := HistogramObserver_with_args (-12);
|}.

Definition wgt_qspec : QuantizationSpec := {|
  dtype := uint8;
  quant_min := 0;
  quant_max := 255;
  qscheme := per_tensor_affine;
  is_dynamic := false;
  observer_or_fake_quant_ctr := MinMaxObserver;
|}.

Definition bias_qspec : option QuantizationSpec := None.

(** Modelled from the spec: the constructor of [QuantizationConfig] is not
    in this file; the spec gives its four positional fields as input
    activation, output activation, weight, bias. *)
Definition _default_qconfig : QuantizationConfig := {|
  input_activation := Some act_qspec;
  output_activation := Some act_qspec;
  weight := Some wgt_qspec;
  bias := None;
|}.

(** ** Store access *)

(** [l[idx]] of Python: negative indices count from the end, anything out
    of range raises [IndexError] (here [None]). *)
Definition py_index {A} (l : list A) (idx : Z) : option A :=
  let n := Z.of_nat (length l) in
  if 0 <=? idx then l !! Z.to_nat idx
  else if - n <=? idx then l !! Z.to_nat (n + idx)
  else None.

(** The reference under ["quantization_annotation"] in [node.meta]. *)
Definition node_ref (g : GraphModule) (n : node_id) : option obj_id :=
  heap g !! n ≫= meta_quantization_annotation.

(** [node.meta.get("quantization_annotation")], with the identity of the
    record and its present contents. *)
Definition node_object (g : GraphModule) (n : node_id)
  : option (obj_id * QuantizationAnnotation) :=
  node_ref g n ≫= fun o => pair o <$> objects g !! o.

(** The contents of the record a node refers to. *)
Definition node_annotation (g : GraphModule) (n : node_id)
  : option QuantizationAnnotation :=
  node_ref g n ≫= fun o => objects g !! o.

(** The identities in use: those of the records and those the nodes
    refer to. *)
Definition object_ids (g : GraphModule) : gset obj_id :=
  dom (objects g)
  ∪ list_to_set (omap meta_quantization_annotation (map_to_list (heap g)).*2).

(** The identity of a newly built record differs from all in use. *)
Definition new_object_id (g : GraphModule) : obj_id := fresh (object_ids g).

Definition node_args (g : GraphModule) (n : node_id) : list Argument :=
  from_option args [] (heap g !! n).

Definition node_users (g : GraphModule) (n : node_id) : list node_id :=
  from_option users [] (heap g !! n).

Definition with_annotation (o : obj_id) (nd : Node) : Node := {|
  target := target nd;
  args := args nd;
  users := users nd;
  meta_quantization_annotation := Some o;
  meta_other := meta_other nd;
|}.

(** [node.meta["quantization_annotation"] = a] for a record [a] built at
    this point: the record gets a new identity and the node refers to it.
    A handle outside the heap denotes no node, and nothing is written. *)
Definition set_annotation (n : node_id) (a : QuantizationAnnotation)
    (g : GraphModule) : GraphModule :=
  match heap g !! n with
  | Some _ => {|
      graph_nodes := graph_nodes g;
      heap := alter (with_annotation (new_object_id g)) n (heap g);
      objects := <[new_object_id g := a]> (objects g);
    |}
  | None => g
  end.

(** An update of the record [o] in place: every node that refers to [o]
    sees it. *)
Definition update_object (o : obj_id)
    (f : QuantizationAnnotation -> QuantizationAnnotation)
    (g : GraphModule) : GraphModule := {|
  graph_nodes := graph_nodes g;
  heap := heap g;
  objects := alter f o (objects g);
|}.

(** Modelled from the spec: the constructor of [QuantizationAnnotation] is
    not in this file; a new record has an empty input map and no output
    spec unless given. *)
Definition QuantizationAnnotation_new
    (out : option QuantizationSpecBase) (flag : bool) : QuantizationAnnotation := {|
  input_qspec_map := ∅;
  output_qspec := out;
  _annotated := flag;
|}.

(** [annotation.input_qspec_map[key] = v]. *)
Definition set_input_qspec (key : Argument) (v : option QuantizationSpecBase)
    (a : QuantizationAnnotation) : QuantizationAnnotation := {|
  input_qspec_map := <[key := v]> (input_qspec_map a);
  output_qspec := output_qspec a;
  _annotated := _annotated a;
|}.

(** ** Helpers of [utils] *)

(** Modelled from the spec: [is_annotated] is not in this file; a node
    carries an annotation when its entry has the already-annotated flag,
    and the check holds as soon as one node of the list does. *)
Definition is_annotated (g : GraphModule) (nodes : list node_id) : bool :=
  existsb (fun n => from_option _annotated false (node_annotation g n)) nodes.

(** Modelled from the spec: [no_outside_users] is not in this file; it
    fails when a node of the partition other than its designated output
    has a consumer outside the partition. *)
Definition no_outside_users (g : GraphModule) (p : Partition) : bool :=
  forallb (fun n =>
             bool_decide (n = part_output p)
             || forallb (fun u => bool_decide (u ∈ part_nodes p)) (node_users g n))
          (part_nodes p).

(** ** The annotation pass *)

(** [custom_spec[0] if custom_spec else spec]. *)
Definition custom_or (custom_spec : list QuantizationSpecBase)
    (spec : option QuantizationSpec) : option QuantizationSpecBase :=
  match custom_spec with
  | c :: _ => Some c
  | [] => QSpec <$> spec
  end.

(** One iteration of the loop over [anchors.output]. *)
Definition annotate_output (output_act_qspec : option QuantizationSpec)
    (g : GraphModule) (entry : OutputAnchor) : GraphModule :=
  let '(out, custom_spec) := entry in
  set_annotation out
    (QuantizationAnnotation_new (custom_or custom_spec output_act_qspec) true) g.

Definition annotate_outputs (outs : list OutputAnchor)
    (output_act_qspec : option QuantizationSpec) (g : GraphModule) : GraphModule :=
  foldl (annotate_output output_act_qspec) g outs.

(** The body of the loop of [annotate_inputs] once [node.args[idx]] is
    known.  When the node has a record, [meta.get] returns that very record,
    its input map is updated in place and storing it back changes nothing;
    otherwise the default record is the one updated and stored. *)
Definition annotate_input (node : node_id) (key : Argument)
    (v : option QuantizationSpecBase) (g : GraphModule) : GraphModule :=
  match node_object g node with
  | Some (o, _) => update_object o (set_input_qspec key v) g
  | None =>
      set_annotation node
        (set_input_qspec key v (QuantizationAnnotation_new None true)) g
  end.

(** The local function [annotate_inputs]. *)
Fixpoint annotate_inputs (ins : list InputAnchor) (spec : option QuantizationSpec)
    (g : GraphModule) : result :=
  match ins with
  | [] => Ok g
  | (node, idx, custom_spec) :: rest =>
      match py_index (node_args g node) idx with
      | None => Raise IndexError g
      | Some key =>
          annotate_inputs rest spec
            (annotate_input node key (custom_or custom_spec spec) g)
      end
  end.

(** The nodes handed to [is_annotated]. *)
Definition anchor_nodes (a : PartitionAnchors) : list node_id :=
  ((fun x : InputAnchor => x.1.1) <$> (inputs a ++ weights a ++ biases a))
  ++ (fst <$> output a).

(** The writes of an accepted partition. *)
Definition assign_specs (c : QuantizationConfig) (a : PartitionAnchors)
    (g : GraphModule) : result :=
  annotate_inputs (inputs a) (input_activation c)
    (annotate_outputs (output a) (output_activation c) g)
  >>> annotate_inputs (weights a) (weight c)
  >>> annotate_inputs (biases a) (bias c).

Section Annotate.
Context {P : Type} `{QuantizationPattern P}.

(** [find_sequential_partitions_aten] of [utils], not in this file. *)
Variable find_sequential_partitions_aten :
  GraphModule -> list string -> list Partition.

(** The body of the loop over the fused partitions. *)
Definition annotate_partition (q : CadenceAtenQuantizer P) (g : GraphModule)
    (fused_partition : Partition) : result :=
  if negb (no_outside_users g fused_partition) then Ok g
  else match get_anchors (pattern q) g fused_partition with
       | None => Ok g
       | Some anchors =>
           if is_annotated g (anchor_nodes anchors) then Ok g
           else assign_specs (quantization_config q) anchors g
       end.

Fixpoint annotate_loop (q : CadenceAtenQuantizer P)
    (fused_partitions : list Partition) (g : GraphModule) : result :=
  match fused_partitions with
  | [] => Ok g
  | p :: rest => annotate_partition q g p >>> annotate_loop q rest
  end.

(** [CadenceAtenQuantizer.annotate]. *)
Definition annotate (q : CadenceAtenQuantizer P) (model : GraphModule) : result :=
  annotate_loop q
    (find_sequential_partitions_aten model (partition_types (pattern q)))
    model.

(** [CadenceAtenQuantizer.validate]: the body is [pass]. *)
Definition validate (q : CadenceAtenQuantizer P) (model : GraphModule) : result :=
  Ok model.

(** Modelled from the spec: the aggregator's [annotate] is inherited
    from [ComposableQuantizer], not in this file; it runs the annotators
    of its list in order on the one graph and returns that graph. *)
Fixpoint composable_annotate (quantizers : list (CadenceAtenQuantizer P))
    (model : GraphModule) : result :=
  match quantizers with
  | [] => Ok model
  | q :: rest => annotate q model >>> composable_annotate rest
  end.
End Annotate.

(** [get_supported_operators]: an operator configuration pairs a config
    with operator lists; the classmethod returns the empty list. *)
Definition OperatorConfig : Type := QuantizationConfig * list (list string).

Definition get_supported_operators : list OperatorConfig := [].

(** ** The default quantizer list *)

(** The pattern classes imported from [patterns]. *)
Inductive CadencePattern :=
  | AddmmPattern
  | BmmPattern
  | Conv1dPattern
  | Conv2dPattern
  | LayerNormPattern
  | LinearPattern
  | MatmulPattern
  | ReluPattern0
  | ReluPattern1.

#[global] Instance CadencePattern_eq_dec : EqDecision CadencePattern.
Proof. solve_decision. Defined.

Definition mkQuantizer {P} (p : P) (c : QuantizationConfig) : CadenceAtenQuantizer P :=
  {| pattern := p; quantization_config := c |}.

Definition get_cadence_default_quantizer_list_with_config
    (quantization_config : QuantizationConfig)
  : list (CadenceAtenQuantizer CadencePattern) :=
  [ mkQuantizer AddmmPattern quantization_config;
    mkQuantizer BmmPattern quantization_config;
    mkQuantizer Conv1dPattern quantization_config;
    mkQuantizer Conv2dPattern quantization_config;
    mkQuantizer LayerNormPattern quantization_config;
    mkQuantizer LinearPattern quantization_config;
    mkQuantizer MatmulPattern quantization_config;
    mkQuantizer ReluPattern0 quantization_config;
    mkQuantizer ReluPattern1 quantization_config ].

(** [CadenceQuantizer]: a composable quantizer holds its list. *)
Record CadenceQuantizer := {
  quantizers : list (CadenceAtenQuantizer CadencePattern);
}.

(** [CadenceDefaultQuantizer.__init__]. *)
Definition CadenceDefaultQuantizer (qconfig : option QuantizationConfig)
  : CadenceQuantizer :=
  let qconfig := match qconfig with
                 | None => _default_qconfig
                 | Some c => c
                 end in
  {| quantizers := get_cadence_default_quantizer_list_with_config qconfig |}.

(** ** Patterns and graphs for concrete runs *)

(** A pattern object given by its two methods, as any subclass of
    [QuantizationPattern] handed to the quantizer is. *)
Record PatternObject := {
  po_partition_types : list string;
  po_get_anchors : GraphModule -> Partition -> option PartitionAnchors;
}.

#[global] Instance PatternObject_pattern : QuantizationPattern PatternObject := {|
  partition_types := po_partition_types;
  get_anchors := po_get_anchors;
|}.

Definition node_target (g : GraphModule) (n : node_id) : option string :=
  target <$> heap g !! n.

(** Modelled from the spec: the addmm pattern of [patterns], not in this
    file; for a partition with nodes mm, add the output anchor is the add
    node, the weight anchor is mm's second argument, the activation-input
    anchor is mm's first argument and the bias anchor is add's non-mm
    operand. *)
Definition addmm_get_anchors (g : GraphModule) (p : Partition)
  : option PartitionAnchors :=
  match part_nodes p with
  | [mm; add] =>
      match node_args g add with
      | [a0; _] =>
          let bias_idx := if decide (a0 = ArgNode mm) then 1 else 0 in
          Some {| inputs := [(mm, 0, [])];
                  weights := [(mm, 1, [])];
                  biases := [(add, bias_idx, [])];
                  output := [(add, [])] |}
      | _ => None
      end
  | _ => None
  end.

Definition addmm_pattern : PatternObject := {|
  po_partition_types := ["mm"; "add"];
  po_get_anchors := addmm_get_anchors;
|}.

(** A one-operator pattern: the matched node is the output anchor and its
    first argument the activation input. *)
Definition single_op_pattern (kind : string) : PatternObject := {|
  po_partition_types := [kind];
  po_get_anchors := fun _ p =>
    Some {| inputs := [(part_output p, 0, [])];
            weights := [];
            biases := [];
            output := [(part_output p, [])] |};
|}.

(** A one-operator pattern that lists its node twice in the output
    bucket, first with a custom spec. *)
Definition doubled_output_pattern (kind : string) : PatternObject := {|
  po_partition_types := [kind];
  po_get_anchors := fun _ p =>
    Some {| inputs := [];
            weights := [];
            biases := [];
            output := [(part_output p, [QSpec wgt_qspec]); (part_output p, [])] |};
|}.

(** Chains of consumers whose kinds follow [sig], starting below [n]. *)
Fixpoint chains_from (g : GraphModule) (sig : list string) (n : node_id)
  : list (list node_id) :=
  match sig with
  | [] => [[]]
  | k :: sig' =>
      flat_map (fun u => if decide (node_target g u = Some k)
                         then cons u <$> chains_from g sig' u
                         else [])
               (node_users g n)
  end.

(** Modelled from the spec: a partition finder, not in this file; one
    partition per matching node for a signature of length one, and
    producer-to-consumer chains of matching kinds for longer signatures,
    in graph order.  Other consumers of an intermediate node are left to
    [no_outside_users], which the pass applies to every partition. *)
Definition chain_finder (g : GraphModule) (sig : list string) : list Partition :=
  match sig with
  | [] => []
  | k :: sig' =>
      flat_map (fun n => if decide (node_target g n = Some k)
                         then (fun c => {| part_nodes := n :: c;
                                           part_output := List.last c n |})
                                <$> chains_from g sig' n
                         else [])
               (graph_nodes g)
  end.

Definition mkNode (t : string) (a : list Argument) (u : list node_id)
    (an : option obj_id) : Node :=
  {| target := t; args := a; users := u;
     meta_quantization_annotation := an; meta_other := ∅ |}.

(** x, w, b feed mm(x, w) and add(mm, b); node 6 returns add. *)
Definition addmm_graph : GraphModule := {|
  graph_nodes := [1; 2; 3; 4; 5; 6]%positive;
  heap := list_to_map
    [ (1%positive, mkNode "placeholder" [] [4%positive] None);
      (2%positive, mkNode "placeholder" [] [4%positive] None);
      (3%positive, mkNode "placeholder" [] [5%positive] None);
      (4%positive, mkNode "mm" [ArgNode 1; ArgNode 2] [5%positive] None);
      (5%positive, mkNode "add" [ArgNode 4; ArgNode 3] [6%positive] None);
      (6%positive, mkNode "output" [ArgNode 5] [] None) ];
  objects := ∅;
|}.

Definition addmm_quantizer : CadenceAtenQuantizer PatternObject :=
  mkQuantizer addmm_pattern _default_qconfig.

(** node 3 is add(x, y) and already refers to a record whose flag is
    unset, as a record built without [_annotated=True] is. *)
Definition stale_annotation : QuantizationAnnotation := {|
  input_qspec_map := {[ ArgNode 2 := Some (QSpec wgt_qspec) ]};
  output_qspec := Some (QSpec wgt_qspec);
  _annotated := false;
|}.

Definition stale_graph : GraphModule := {|
  graph_nodes := [1; 2; 3; 4]%positive;
  heap := list_to_map
    [ (1%positive, mkNode "placeholder" [] [3%positive] None);
      (2%positive, mkNode "placeholder" [] [3%positive] None);
      (3%positive, mkNode "add" [ArgNode 1; ArgNode 2] [4%positive]
                     (Some 1%positive));
      (4%positive, mkNode "output" [ArgNode 3] [] None) ];
  objects := {[ 1%positive := stale_annotation ]};
|}.

Definition add_quantizer : CadenceAtenQuantizer PatternObject :=
  mkQuantizer (single_op_pattern "add") _default_qconfig.

(** [addmm_graph] with the add node annotated before the pass. *)
Definition claimed_annotation : QuantizationAnnotation :=
  QuantizationAnnotation_new (Some (QSpec wgt_qspec)) true.

Definition addmm_graph_claimed : GraphModule :=
  set_annotation 5%positive claimed_annotation addmm_graph.

(** [addmm_graph] where mm has a second consumer, node 7. *)
Definition branching_graph : GraphModule := {|
  graph_nodes := [1; 2; 3; 4; 5; 7; 6]%positive;
  heap := list_to_map
    [ (1%positive, mkNode "placeholder" [] [4%positive] None);
      (2%positive, mkNode "placeholder" [] [4%positive] None);
      (3%positive, mkNode "placeholder" [] [5%positive] None);
      (4%positive, mkNode "mm" [ArgNode 1; ArgNode 2] [5; 7]%positive None);
      (5%positive, mkNode "add" [ArgNode 4; ArgNode 3] [6%positive] None);
      (7%positive, mkNode "relu" [ArgNode 4] [6%positive] None);
      (6%positive, mkNode "output" [ArgNode 5; ArgNode 7] [] None) ];
  objects := ∅;
|}.

(** [addmm_graph] with another metadata key on the mm node. *)
Definition addmm_graph_traced : GraphModule := {|
  graph_nodes := graph_nodes addmm_graph;
  heap := alter (fun nd => {| target := target nd; args := args nd;
                              users := users nd;
                              meta_quantization_annotation :=
                                meta_quantization_annotation nd;
                              meta_other := {[ "stack_trace" := 17 ]} |})
                4%positive (heap addmm_graph);
  objects := objects addmm_graph;
|}.

Definition addmm_partition : Partition :=
  {| part_nodes := [4; 5]%positive; part_output := 5%positive |}.

Definition add_partition : Partition :=
  {| part_nodes := [5]%positive; part_output := 5%positive |}.

(** The entry of the add node once the addmm partition is annotated under
    the default configuration. *)
Definition add_entry : QuantizationAnnotation := {|
  input_qspec_map := {[ ArgNode 3 := None ]};
  output_qspec := Some (QSpec act_qspec);
  _annotated := true;
|}.

(** A caller-supplied configuration that quantizes biases too. *)
Definition biased_qconfig : QuantizationConfig := {|
  input_activation := Some act_qspec;
  output_activation := Some act_qspec;
  weight := Some wgt_qspec;
  bias := Some wgt_qspec;
|}.

(** ** Relations between stores *)

(** What the pass must leave alone in a node. *)
Definition frame (nd : Node) : string * list Argument * list node_id * gmap string Z :=
  (target nd, args nd, users nd, meta_other nd).

(** Same nodes, kinds, wiring and other metadata; annotations are free. *)
Definition only_annotations_differ (g1 g2 : GraphModule) : Prop :=
  graph_nodes g1 = graph_nodes g2
  ∧ ∀ n, frame <$> heap g1 !! n = frame <$> heap g2 !! n.

(** Kind and wiring of a node. *)
Definition wiring (nd : Node) : string * list Argument * list node_id :=
  (target nd, args nd, users nd).

(** Same node count, operator kinds and argument wiring. *)
Definition structurally_identical (g1 g2 : GraphModule) : Prop :=
  graph_nodes g1 = graph_nodes g2
  ∧ ∀ n, wiring <$> heap g1 !! n = wiring <$> heap g2 !! n.

(** Same annotation records, referred to by the same nodes. *)
Definition same_annotations (g1 g2 : GraphModule) : Prop :=
  (∀ n, node_ref g1 n = node_ref g2 n) ∧ objects g1 = objects g2.

Definition same_outcome (r1 r2 : result) : Prop :=
  match r1, r2 with
  | Ok g1, Ok g2 => structurally_identical g1 g2 ∧ same_annotations g1 g2
  | Raise e1 g1, Raise e2 g2 =>
      e1 = e2 ∧ structurally_identical g1 g2 ∧ same_annotations g1 g2
  | _, _ => False
  end.

(** A finder, or a pattern, whose result is the same on two graphs with
    the same kinds and wiring and the same annotation records. *)
Definition reads_graph_only_find
    (find : GraphModule -> list string -> list Partition) : Prop :=
  ∀ g1 g2 sig, structurally_identical g1 g2 → same_annotations g1 g2 →
               find g1 sig = find g2 sig.

Definition reads_graph_only {P} `{QuantizationPattern P} (pat : P) : Prop :=
  ∀ g1 g2 p, structurally_identical g1 g2 → same_annotations g1 g2 →
             get_anchors pat g1 p = get_anchors pat g2 p.

(** The index of an anchor is in range for its node. *)
Definition valid_anchor (g : GraphModule) (x : InputAnchor) : Prop :=
  is_Some (py_index (node_args g x.1.1) x.1.2).

(** On the partitions found in [g], the pattern names argument positions
    that exist, whatever the annotations are at that point. *)
Definition anchors_in_range {P} `{QuantizationPattern P}
    (find : GraphModule -> list string -> list Partition) (pat : P)
    (g : GraphModule) : Prop :=
  ∀ g0 g' p anchors,
    only_annotations_differ g g0 → only_annotations_differ g g' →
    p ∈ find g0 (partition_types pat) →
    get_anchors pat g' p = Some anchors →
    Forall (valid_anchor g') (inputs anchors ++ weights anchors ++ biases anchors).

(** Every entry of the graph has the annotated flag. *)
Definition all_annotated (g : GraphModule) : Prop :=
  ∀ n a, node_annotation g n = Some a → _annotated a = true.

(** The anchor [x] names node [n] and, through its index, the argument
    [k]: its write goes to key [k] of the input map of [n]. *)
Definition addresses (g : GraphModule) (n : node_id) (k : Argument)
    (x : InputAnchor) : Prop :=
  x.1.1 = n ∧ py_index (node_args g n) x.1.2 = Some k.

(** Two nodes refer to one and the same record. *)
Definition shares (g : GraphModule) (n m : node_id) : Prop :=
  ∃ o, node_ref g n = Some o ∧ node_ref g m = Some o.

(** The write of anchor [x] goes to key [k] of the record of [n]: the
    anchor's node is [n] or refers to the record [n] refers to, and its
    index names the argument [k]. *)
Definition writes_to (g : GraphModule) (n : node_id) (k : Argument)
    (x : InputAnchor) : Prop :=
  (x.1.1 = n ∨ shares g n x.1.1)
  ∧ py_index (node_args g x.1.1) x.1.2 = Some k.

(** From [g] to [g'] no two distinct nodes came to share a record. *)
Definition no_new_sharing (g g' : GraphModule) : Prop :=
  ∀ x y, x ≠ y → shares g' x y → shares g x y.

(** Node [n] shares its record with no other node. *)
Definition unshared_node (g : GraphModule) (n : node_id) : Prop :=
  ∀ m, m ≠ n → ¬ shares g n m.

(** A partition the loop passes over: one of the three [continue]s of
    [annotate] fires. *)
Definition ineligible {P} `{QuantizationPattern P} (pat : P)
    (g : GraphModule) (p : Partition) : Prop :=
  no_outside_users g p = false
  ∨ get_anchors pat g p = None
  ∨ ∃ a, get_anchors pat g p = Some a ∧ is_annotated g (anchor_nodes a) = true.

(** A finder, or a pattern, that looks at kinds and wiring only. *)
Definition reads_wiring_only_find
    (find : GraphModule -> list string -> list Partition) : Prop :=
  ∀ g1 g2 sig, structurally_identical g1 g2 → find g1 sig = find g2 sig.

Definition reads_wiring_only {P} `{QuantizationPattern P} (pat : P) : Prop :=
  ∀ g1 g2 p, structurally_identical g1 g2 →
             get_anchors pat g1 p = get_anchors pat g2 p.


(** The anchors the addmm pattern gives for nodes 4 and 5. *)
Definition addmm_anchors : PartitionAnchors := {|
  inputs := [(4%positive, 0, [])];
  weights := [(4%positive, 1, [])];
  biases := [(5%positive, 1, [])];
  output := [(5%positive, [])];
|}.

(** A one-operator pattern with an activation anchor and no output. *)
Definition input_only_pattern (kind : string) : PatternObject := {|
  po_partition_types := [kind];
  po_get_anchors := fun _ p =>
    Some {| inputs := [(part_output p, 0, [])];
            weights := [];
            biases := [];
            output := [] |};
|}.

(** An addmm pattern whose activation anchor names a third argument of mm. *)
Definition misindexed_addmm_pattern : PatternObject := {|
  po_partition_types := ["mm"; "add"];
  po_get_anchors := fun _ p =>
    match part_nodes p with
    | [mm; add] =>
        Some {| inputs := [(mm, 2, [])];
                weights := [(mm, 1, [])];
                biases := [];
                output := [(add, [])] |}
    | _ => None
    end;
|}.

(** [addmm_graph] where mm already refers to a record whose flag is unset. *)
Definition stale_mm_graph : GraphModule := {|
  graph_nodes := graph_nodes addmm_graph;
  heap := alter (with_annotation 1%positive) 4%positive (heap addmm_graph);
  objects := {[ 1%positive := QuantizationAnnotation_new None false ]};
|}.

Definition mm_quantizer : CadenceAtenQuantizer PatternObject :=
  mkQuantizer (single_op_pattern "mm") _default_qconfig.

Definition mm_partition : Partition :=
  {| part_nodes := [4]%positive; part_output := 4%positive |}.

(** Two adds in a row, with the anchors of the addmm pattern. *)
Definition add_add_pattern : PatternObject := {|
  po_partition_types := ["add"; "add"];
  po_get_anchors := addmm_get_anchors;
|}.

(** add(x, y) feeds add(., y) and a relu; the second add feeds add(., x). *)
Definition add_chain_graph : GraphModule := {|
  graph_nodes := [1; 2; 3; 4; 5; 7; 6]%positive;
  heap := list_to_map
    [ (1%positive, mkNode "placeholder" [] [3; 5]%positive None);
      (2%positive, mkNode "placeholder" [] [3; 4]%positive None);
      (3%positive, mkNode "add" [ArgNode 1; ArgNode 2] [4; 7]%positive None);
      (4%positive, mkNode "add" [ArgNode 3; ArgNode 2] [5%positive] None);
      (5%positive, mkNode "add" [ArgNode 4; ArgNode 1] [6%positive] None);
      (7%positive, mkNode "relu" [ArgNode 3] [6%positive] None);
      (6%positive, mkNode "output" [ArgNode 5; ArgNode 7] [] None) ];
  objects := ∅;
|}.

(** A bias spec derived from the activation and weight edges of mm. *)
Definition derived_bias_spec : QuantizationSpecBase :=
  QDerived {| derived_from := [(ArgNode 1, 4%positive); (ArgNode 2, 4%positive)];
              derive_qparams_fn := 0;
              derived_dtype := int32;
              derived_quant_min := - 2147483648;
              derived_quant_max := 2147483647;
              derived_qscheme := per_tensor_affine |}.

(** The anchors of the addmm pattern with a derived spec on the bias. *)
Definition derived_bias_pattern : PatternObject := {|
  po_partition_types := ["mm"; "add"];
  po_get_anchors := fun _ p =>
    match part_nodes p with
    | [mm; add] =>
        Some {| inputs := [(mm, 0, [])];
                weights := [(mm, 1, [])];
                biases := [(add, 1, [derived_bias_spec])];
                output := [(add, [])] |}
    | _ => None
    end;
|}.

(** [stale_graph] where the output node refers to the record of node 3. *)
Definition shared_graph : GraphModule := {|
  graph_nodes := graph_nodes stale_graph;
  heap := alter (with_annotation 1%positive) 4%positive (heap stale_graph);
  objects := objects stale_graph;
|}.

(** ** Reading the store after a write *)

Lemma elem_of_object_ids g o :
  o ∈ object_ids g ↔ is_Some (objects g !! o) ∨ ∃ n, node_ref g n = Some o.
Proof.
  unfold object_ids, node_ref.
  rewrite elem_of_union, elem_of_dom, elem_of_list_to_set, list_elem_of_omap.
  split; (intros [Ho|Hr]; [by left|right]).
  - destruct Hr as (nd & Hin & Hnd).
    apply list_elem_of_fmap in Hin as ([n nd'] & -> & Hin). simpl in *.
    apply elem_of_map_to_list in Hin. exists n. by rewrite Hin.
  - destruct Hr as (n & Hn).
    destruct (heap g !! n) as [nd|] eqn:E; [|done]. simpl in Hn.
    exists nd. split; [|done]. apply list_elem_of_fmap.
    exists (n, nd). split; [done|]. by apply elem_of_map_to_list.
Qed.

Lemma new_object_id_ref g n : node_ref g n ≠ Some (new_object_id g).
Proof.
  intros Hn. apply (is_fresh (object_ids g)). apply elem_of_object_ids. eauto.
Qed.

Lemma new_object_id_obj g : objects g !! new_object_id g = None.
Proof.
  destruct (objects g !! new_object_id g) eqn:E; [|done]. exfalso.
  apply (is_fresh (object_ids g)). apply elem_of_object_ids. left.
  unfold new_object_id in E. by rewrite E.
Qed.

Lemma node_annotation_object g n a :
  node_annotation g n = Some a ↔ ∃ o, node_object g n = Some (o, a).
Proof.
  unfold node_annotation, node_object. destruct (node_ref g n) as [o|]; simpl.
  - destruct (objects g !! o) as [b|]; simpl; split.
    + intros [= ->]. by exists o.
    + by intros (o' & [= _ ->]).
    + done.
    + by intros (o' & ?).
  - split; [done|]. by intros (o & ?).
Qed.

Lemma node_object_ref g n o a :
  node_object g n = Some (o, a) → node_ref g n = Some o ∧ objects g !! o = Some a.
Proof.
  unfold node_object. destruct (node_ref g n) as [o'|]; simpl; [|done].
  destruct (objects g !! o') as [b|] eqn:E; simpl; [|done].
  by intros [= -> ->].
Qed.

Lemma node_object_None g n :
  node_object g n = None → node_annotation g n = None.
Proof.
  unfold node_annotation, node_object. destruct (node_ref g n) as [o|]; simpl;
    [|done].
  by destruct (objects g !! o).
Qed.

Lemma heap_set_annotation n a g m :
  heap (set_annotation n a g) !! m
  = if decide (n = m) then with_annotation (new_object_id g) <$> heap g !! n
    else heap g !! m.
Proof.
  unfold set_annotation. destruct (heap g !! n) as [nd|] eqn:E; simpl.
  - rewrite lookup_alter. case_decide; [by rewrite E|done].
  - case_decide; [by subst m; rewrite E|done].
Qed.

Lemma node_ref_set_eq n a g :
  is_Some (heap g !! n) →
  node_ref (set_annotation n a g) n = Some (new_object_id g).
Proof.
  intros [nd Hnd]. unfold node_ref. rewrite heap_set_annotation.
  case_decide; [|done]. by rewrite Hnd.
Qed.

Lemma node_ref_set_ne n m a g :
  n ≠ m → node_ref (set_annotation n a g) m = node_ref g m.
Proof.
  intros Hne. unfold node_ref. rewrite heap_set_annotation. by case_decide.
Qed.

Lemma objects_set_annotation n a g o :
  o ≠ new_object_id g → objects (set_annotation n a g) !! o = objects g !! o.
Proof.
  intros Ho. unfold set_annotation. destruct (heap g !! n); [|done].
  simpl. by rewrite lookup_insert_ne.
Qed.

Lemma node_annotation_set_ne n m a g :
  n ≠ m → node_annotation (set_annotation n a g) m = node_annotation g m.
Proof.
  intros Hne. unfold node_annotation. rewrite node_ref_set_ne by done.
  destruct (node_ref g m) as [o|] eqn:Hm; [|done]. simpl.
  apply objects_set_annotation. intros ->. by apply (new_object_id_ref g m).
Qed.

Lemma node_annotation_set_eq n a g :
  is_Some (heap g !! n) → node_annotation (set_annotation n a g) n = Some a.
Proof.
  intros Hn. unfold node_annotation. rewrite node_ref_set_eq by done. simpl.
  destruct Hn as [nd Hnd]. unfold set_annotation. rewrite Hnd. simpl.
  apply lookup_insert_eq.
Qed.

Lemma node_ref_is_Some_heap g n o :
  node_ref g n = Some o → is_Some (heap g !! n).
Proof. unfold node_ref. destruct (heap g !! n); [eauto | done]. Qed.

Lemma node_annotation_is_Some_heap g n a :
  node_annotation g n = Some a → is_Some (heap g !! n).
Proof.
  unfold node_annotation. destruct (node_ref g n) as [o|] eqn:E; [|done].
  intros _. by eapply node_ref_is_Some_heap.
Qed.

Lemma frame_set_annotation n a g m :
  frame <$> heap (set_annotation n a g) !! m = frame <$> heap g !! m.
Proof.
  rewrite heap_set_annotation. case_decide as Hd; [subst m|done].
  by destruct (heap g !! n).
Qed.

Lemma graph_nodes_set_annotation n a g :
  graph_nodes (set_annotation n a g) = graph_nodes g.
Proof. unfold set_annotation. by destruct (heap g !! n). Qed.

Lemma node_args_set n a g m : node_args (set_annotation n a g) m = node_args g m.
Proof.
  unfold node_args. rewrite heap_set_annotation.
  case_decide as Hd; [subst m|done]. by destruct (heap g !! n).
Qed.

Lemma node_users_set n a g m : node_users (set_annotation n a g) m = node_users g m.
Proof.
  unfold node_users. rewrite heap_set_annotation.
  case_decide as Hd; [subst m|done]. by destruct (heap g !! n).
Qed.

Lemma heap_set_is_Some n a g m :
  is_Some (heap (set_annotation n a g) !! m) ↔ is_Some (heap g !! m).
Proof.
  rewrite heap_set_annotation. case_decide as Hd; [subst m|done].
  by rewrite fmap_is_Some.
Qed.

Lemma node_annotation_update o f g m :
  node_annotation (update_object o f g) m
  = if decide (node_ref g m = Some o) then f <$> node_annotation g m
    else node_annotation g m.
Proof.
  unfold node_annotation, update_object, node_ref. simpl.
  destruct (heap g !! m ≫= meta_quantization_annotation) as [o'|] eqn:E; simpl.
  - rewrite lookup_alter. destruct (decide (o = o')) as [->|Hne].
    + by rewrite decide_True.
    + rewrite decide_False; [done|congruence].
  - done.
Qed.

(** ** One write of [annotate_inputs] *)

Lemma heap_annotate_input_is_Some n k v g m :
  is_Some (heap (annotate_input n k v g) !! m) ↔ is_Some (heap g !! m).
Proof.
  unfold annotate_input. destruct (node_object g n) as [[o a]|]; [done|].
  apply heap_set_is_Some.
Qed.

Lemma frame_annotate_input n k v g m :
  frame <$> heap (annotate_input n k v g) !! m = frame <$> heap g !! m.
Proof.
  unfold annotate_input. destruct (node_object g n) as [[o a]|]; [done|].
  apply frame_set_annotation.
Qed.

Lemma graph_nodes_annotate_input n k v g :
  graph_nodes (annotate_input n k v g) = graph_nodes g.
Proof.
  unfold annotate_input. destruct (node_object g n) as [[o a]|]; [done|].
  apply graph_nodes_set_annotation.
Qed.

Lemma node_args_annotate_input n k v g m :
  node_args (annotate_input n k v g) m = node_args g m.
Proof.
  unfold annotate_input. destruct (node_object g n) as [[o a]|]; [done|].
  apply node_args_set.
Qed.

Lemma node_ref_annotate_input_ne n k v g m :
  n ≠ m → node_ref (annotate_input n k v g) m = node_ref g m.
Proof.
  intros Hne. unfold annotate_input.
  destruct (node_object g n) as [[o a]|]; [done|]. by apply node_ref_set_ne.
Qed.

Lemma node_ref_annotate_input_has n k v g a :
  node_annotation g n = Some a →
  node_ref (annotate_input n k v g) n = node_ref g n.
Proof.
  intros Ha. apply node_annotation_object in Ha as [o Ho].
  unfold annotate_input. by rewrite Ho.
Qed.

(** The node written ends with the key set, in the record it had or in a
    new one. *)
Lemma annotate_input_self n k v g :
  is_Some (heap g !! n) →
  node_annotation (annotate_input n k v g) n
  = Some (set_input_qspec k v
            (default (QuantizationAnnotation_new None true)
               (node_annotation g n))).
Proof.
  intros Hn. unfold annotate_input.
  destruct (node_object g n) as [[o a]|] eqn:E.
  - destruct (node_object_ref g n o a E) as [Hr Ho].
    rewrite node_annotation_update, decide_True by done.
    assert (Ha : node_annotation g n = Some a)
      by (apply node_annotation_object; eauto).
    by rewrite Ha.
  - rewrite (node_object_None g n E). simpl. by apply node_annotation_set_eq.
Qed.

(** A node that refers to the record written sees the key set. *)
Lemma annotate_input_shared n k v g m a :
  node_annotation g m = Some a → n = m ∨ shares g m n →
  node_annotation (annotate_input n k v g) m = Some (set_input_qspec k v a).
Proof.
  intros Ha [->|(o & Hm & Hn)].
  - rewrite annotate_input_self by (by eapply node_annotation_is_Some_heap).
    by rewrite Ha.
  - assert (Ho : objects g !! o = Some a).
    { unfold node_annotation in Ha. by rewrite Hm in Ha. }
    unfold annotate_input, node_object. rewrite Hn. simpl. rewrite Ho. simpl.
    rewrite node_annotation_update, decide_True by done. by rewrite Ha.
Qed.

(** Any other node keeps the contents of its record. *)
Lemma annotate_input_unrelated n k v g m :
  n ≠ m → ¬ shares g m n →
  node_annotation (annotate_input n k v g) m = node_annotation g m.
Proof.
  intros Hne Hsh. unfold annotate_input.
  destruct (node_object g n) as [[o a]|] eqn:E.
  - destruct (node_object_ref g n o a E) as [Hr Ho].
    rewrite node_annotation_update. case_decide as Hd; [|done].
    exfalso. apply Hsh. by exists o.
  - by apply node_annotation_set_ne.
Qed.

Lemma shares_sym g n m : shares g n m → shares g m n.
Proof. intros (o & Hn & Hm). by exists o. Qed.

Lemma shares_set_annotation n a g x y :
  x ≠ y → shares (set_annotation n a g) x y → shares g x y.
Proof.
  intros Hxy (o & Hx & Hy).
  destruct (decide (n = x)) as [->|Hnx].
  - exfalso. rewrite node_ref_set_ne in Hy by done.
    destruct (heap g !! x) as [nd|] eqn:E.
    + rewrite node_ref_set_eq in Hx by eauto. injection Hx as <-.
      by apply (new_object_id_ref g y).
    + unfold set_annotation in Hx. rewrite E in Hx.
      unfold node_ref in Hx. by rewrite E in Hx.
  - rewrite node_ref_set_ne in Hx by done.
    destruct (decide (n = y)) as [->|Hny].
    + exfalso. destruct (heap g !! y) as [nd|] eqn:E.
      * rewrite node_ref_set_eq in Hy by eauto. injection Hy as <-.
        by apply (new_object_id_ref g x).
      * unfold set_annotation in Hy. rewrite E in Hy.
        unfold node_ref in Hy. by rewrite E in Hy.
    + rewrite node_ref_set_ne in Hy by done. by exists o.
Qed.

Lemma shares_annotate_input n k v g x y :
  x ≠ y → shares (annotate_input n k v g) x y → shares g x y.
Proof.
  unfold annotate_input. destruct (node_object g n) as [[o a]|]; [done|].
  apply shares_set_annotation.
Qed.

Lemma no_new_sharing_refl g : no_new_sharing g g.
Proof. by intros x y. Qed.

Lemma no_new_sharing_trans g1 g2 g3 :
  no_new_sharing g1 g2 → no_new_sharing g2 g3 → no_new_sharing g1 g3.
Proof. intros H12 H23 x y Hxy Hs. by apply H12, H23. Qed.
(** ** The pass touches annotations only *)

Lemma only_annotations_differ_refl g : only_annotations_differ g g.
Proof. by split. Qed.

Lemma only_annotations_differ_trans g1 g2 g3 :
  only_annotations_differ g1 g2 → only_annotations_differ g2 g3 →
  only_annotations_differ g1 g3.
Proof.
  intros [Hn1 Hf1] [Hn2 Hf2]. split; [congruence|].
  intros n. by rewrite Hf1.
Qed.

Lemma only_annotations_differ_sym g1 g2 :
  only_annotations_differ g1 g2 → only_annotations_differ g2 g1.
Proof. intros [Hn Hf]. split; [done|]. intros n. by rewrite Hf. Qed.

Lemma only_annotations_differ_set n a g :
  only_annotations_differ g (set_annotation n a g).
Proof.
  split; [by rewrite graph_nodes_set_annotation|].
  intros m. by rewrite frame_set_annotation.
Qed.

Lemma only_annotations_differ_input n k v g :
  only_annotations_differ g (annotate_input n k v g).
Proof.
  split; [by rewrite graph_nodes_annotate_input|].
  intros m. by rewrite frame_annotate_input.
Qed.

Lemma only_annotations_differ_users g1 g2 n :
  only_annotations_differ g1 g2 → node_users g1 n = node_users g2 n.
Proof.
  intros [_ Hf]. specialize (Hf n). unfold node_users.
  destruct (heap g1 !! n) as [nd1|], (heap g2 !! n) as [nd2|];
    simpl in *; try done.
  by injection Hf as _ _ -> _.
Qed.

Lemma annotate_output_frame spec g e :
  only_annotations_differ g (annotate_output spec g e).
Proof. destruct e as [out cs]. apply only_annotations_differ_set. Qed.

Lemma annotate_outputs_frame outs spec g :
  only_annotations_differ g (annotate_outputs outs spec g).
Proof.
  revert g. induction outs as [|e outs IH]; intros g; simpl.
  - apply only_annotations_differ_refl.
  - eapply only_annotations_differ_trans; [apply annotate_output_frame|apply IH].
Qed.

Lemma annotate_inputs_frame ins spec g :
  only_annotations_differ g (store (annotate_inputs ins spec g)).
Proof.
  revert g. induction ins as [|[[n idx] cs] ins IH]; intros g; simpl.
  - apply only_annotations_differ_refl.
  - destruct (py_index (node_args g n) idx) as [key|]; simpl.
    + eapply only_annotations_differ_trans;
        [apply only_annotations_differ_input|apply IH].
    + apply only_annotations_differ_refl.
Qed.

Lemma bind_frame g r k :
  only_annotations_differ g (store r) →
  (∀ g', only_annotations_differ g' (store (k g'))) →
  only_annotations_differ g (store (r >>> k)).
Proof.
  intros Hr Hk. destruct r as [g'|e g']; simpl in *; [|done].
  eapply only_annotations_differ_trans; [exact Hr|apply Hk].
Qed.

Lemma assign_specs_frame c a g :
  only_annotations_differ g (store (assign_specs c a g)).
Proof.
  unfold assign_specs.
  repeat apply bind_frame; try (intros; apply annotate_inputs_frame).
  eapply only_annotations_differ_trans;
    [apply annotate_outputs_frame|apply annotate_inputs_frame].
Qed.

Section AnnotateFrame.
Context {P : Type} `{QuantizationPattern P}.
Variable find : GraphModule -> list string -> list Partition.

Lemma annotate_partition_frame (q : CadenceAtenQuantizer P) g p :
  only_annotations_differ g (store (annotate_partition q g p)).
Proof.
  unfold annotate_partition.
  destruct (negb _); [apply only_annotations_differ_refl|].
  destruct (get_anchors _ _ _) as [a|]; [|apply only_annotations_differ_refl].
  destruct (is_annotated _ _); [apply only_annotations_differ_refl|].
  apply assign_specs_frame.
Qed.

Lemma annotate_loop_frame (q : CadenceAtenQuantizer P) ps g :
  only_annotations_differ g (store (annotate_loop q ps g)).
Proof.
  revert g. induction ps as [|p ps IH]; intros g; simpl.
  - apply only_annotations_differ_refl.
  - apply bind_frame; [apply annotate_partition_frame|apply IH].
Qed.

Lemma annotate_frame (q : CadenceAtenQuantizer P) g :
  only_annotations_differ g (store (annotate find q g)).
Proof. apply annotate_loop_frame. Qed.

Lemma composable_annotate_frame (qs : list (CadenceAtenQuantizer P)) g :
  only_annotations_differ g (store (composable_annotate find qs g)).
Proof.
  revert g. induction qs as [|q qs IH]; intros g; simpl.
  - apply only_annotations_differ_refl.
  - apply bind_frame; [apply annotate_frame|apply IH].
Qed.

End AnnotateFrame.

(** ** Nodes that are not anchors keep their entry *)

Lemma annotate_outputs_other outs spec g n :
  n ∉ fst <$> outs →
  node_annotation (annotate_outputs outs spec g) n = node_annotation g n.
Proof.
  revert g. induction outs as [|[out cs] outs IH]; intros g Hn; [done|].
  rewrite fmap_cons, not_elem_of_cons in Hn. destruct Hn as [Hne Hn].
  unfold annotate_outputs in *. simpl. rewrite IH by done.
  by apply node_annotation_set_ne.
Qed.

(** No two distinct nodes come to share a record through the writes. *)
Lemma annotate_outputs_sharing outs spec g :
  no_new_sharing g (annotate_outputs outs spec g).
Proof.
  revert g. unfold annotate_outputs.
  induction outs as [|[out cs] outs IH]; intros g; [apply no_new_sharing_refl|].
  simpl. eapply no_new_sharing_trans; [|apply IH].
  intros x y Hxy. by apply shares_set_annotation.
Qed.

Lemma annotate_inputs_sharing ins spec g :
  no_new_sharing g (store (annotate_inputs ins spec g)).
Proof.
  revert g. induction ins as [|[[m idx] cs] ins IH]; intros g;
    [apply no_new_sharing_refl|].
  simpl. destruct (py_index (node_args g m) idx) as [key|];
    [|apply no_new_sharing_refl].
  eapply no_new_sharing_trans; [|apply IH].
  intros x y Hxy. by apply shares_annotate_input.
Qed.

Lemma bind_sharing g r k :
  no_new_sharing g (store r) →
  (∀ g', no_new_sharing g' (store (k g'))) →
  no_new_sharing g (store (r >>> k)).
Proof.
  intros Hr Hk. destruct r as [g'|e g']; simpl in *; [|done].
  eapply no_new_sharing_trans; [exact Hr|apply Hk].
Qed.

Lemma assign_specs_sharing c a g :
  no_new_sharing g (store (assign_specs c a g)).
Proof.
  unfold assign_specs.
  repeat apply bind_sharing; try (intros; apply annotate_inputs_sharing).
  eapply no_new_sharing_trans;
    [apply annotate_outputs_sharing|apply annotate_inputs_sharing].
Qed.

(** A node that is not the node of an anchor, and shares its record with
    none of them, keeps the contents of its record. *)
Lemma annotate_inputs_other ins spec gb g n :
  no_new_sharing gb g →
  (∀ x : InputAnchor, x ∈ ins → x.1.1 ≠ n ∧ ¬ shares gb n x.1.1) →
  node_annotation (store (annotate_inputs ins spec g)) n = node_annotation g n.
Proof.
  revert g. induction ins as [|[[m idx] cs] ins IH]; intros g Hs Hn; [done|].
  destruct (Hn (m, idx, cs)) as [Hne Hsh]; [left|]. simpl in *.
  destruct (py_index (node_args g m) idx) as [key|]; [|done].
  rewrite IH.
  - apply annotate_input_unrelated; [done|]. intros Hgs.
    destruct (decide (n = m)) as [->|Hnm]; [done|]. by apply Hsh, Hs.
  - eapply no_new_sharing_trans; [exact Hs|].
    intros x y Hxy. by apply shares_annotate_input.
  - intros x Hx. apply Hn. by right.
Qed.

Lemma bind_other n g r k :
  node_annotation (store r) n = node_annotation g n →
  (∀ g', node_annotation (store (k g')) n = node_annotation g' n) →
  node_annotation (store (r >>> k)) n = node_annotation g n.
Proof.
  intros Hr Hk. destruct r as [g'|e g']; simpl in *; [|done].
  by rewrite Hk.
Qed.

Lemma anchor_nodes_inputs (a : PartitionAnchors) (x : InputAnchor) :
  x ∈ inputs a ++ weights a ++ biases a → x.1.1 ∈ anchor_nodes a.
Proof.
  intros Hx. unfold anchor_nodes. apply elem_of_app. left.
  apply list_elem_of_fmap. by exists x.
Qed.

Lemma anchor_nodes_output (a : PartitionAnchors) (x : OutputAnchor) :
  x ∈ output a → x.1 ∈ anchor_nodes a.
Proof.
  intros Hx. unfold anchor_nodes. apply elem_of_app. right.
  apply list_elem_of_fmap. by exists x.
Qed.

Lemma assign_specs_other c a gb g n :
  no_new_sharing gb g →
  (∀ m, m ∈ anchor_nodes a → m ≠ n ∧ ¬ shares gb n m) →
  node_annotation (store (assign_specs c a g)) n = node_annotation g n.
Proof.
  intros Hs Hn. unfold assign_specs.
  assert (Ho : n ∉ fst <$> output a).
  { intros Hin. apply list_elem_of_fmap in Hin as (x & -> & Hx).
    by destruct (Hn x.1 (anchor_nodes_output a x Hx)). }
  assert (Hin : ∀ l, (l = inputs a ∨ l = weights a ∨ l = biases a) →
            ∀ x : InputAnchor, x ∈ l → x.1.1 ≠ n ∧ ¬ shares gb n x.1.1).
  { intros l Hl x Hx. apply Hn, anchor_nodes_inputs. rewrite !elem_of_app.
    destruct Hl as [-> | [-> | ->]]; auto. }
  pose proof (annotate_outputs_sharing (output a) (output_activation c) g) as S0.
  pose proof (annotate_outputs_other (output a) (output_activation c) g n Ho)
    as H0.
  set (g0 := annotate_outputs (output a) (output_activation c) g) in *.
  assert (S0' : no_new_sharing gb g0) by (by eapply no_new_sharing_trans).
  pose proof (annotate_inputs_sharing (inputs a) (input_activation c) g0) as S1.
  pose proof (annotate_inputs_other (inputs a) (input_activation c) gb g0 n S0'
                (Hin _ (or_introl eq_refl))) as H1.
  destruct (annotate_inputs (inputs a) _ g0) as [g1|e g1]; simpl in *;
    [|congruence].
  assert (S1' : no_new_sharing gb g1) by (by eapply no_new_sharing_trans).
  pose proof (annotate_inputs_sharing (weights a) (weight c) g1) as S2.
  pose proof (annotate_inputs_other (weights a) (weight c) gb g1 n S1'
                (Hin _ (or_intror (or_introl eq_refl)))) as H2.
  destruct (annotate_inputs (weights a) _ g1) as [g2|e g2]; simpl in *;
    [|congruence].
  assert (S2' : no_new_sharing gb g2) by (by eapply no_new_sharing_trans).
  rewrite (annotate_inputs_other (biases a) (bias c) gb g2 n S2'
             (Hin _ (or_intror (or_intror eq_refl)))).
  congruence.
Qed.

(** A node with a flagged entry is no anchor of a partition that passes
    the already-annotated check, and shares its record with none. *)
Lemma is_annotated_false_apart g nodes n a m :
  is_annotated g nodes = false →
  node_annotation g n = Some a → _annotated a = true →
  m ∈ nodes → m ≠ n ∧ ¬ shares g n m.
Proof.
  intros Hann Hn Ha Hm.
  assert (Hfl : from_option _annotated false (node_annotation g m) = false).
  { unfold is_annotated in Hann.
    destruct (from_option _annotated false (node_annotation g m)) eqn:E;
      [|done].
    assert (Hex : existsb (fun n => from_option _annotated false
                                     (node_annotation g n)) nodes = true).
    { apply existsb_exists. exists m. split; [by apply list_elem_of_In|done]. }
    congruence. }
  split.
  - intros ->. rewrite Hn in Hfl. simpl in Hfl. congruence.
  - intros (o & Hno & Hmo).
    assert (Hmn : node_annotation g m = node_annotation g n).
    { unfold node_annotation. by rewrite Hno, Hmo. }
    rewrite Hmn, Hn in Hfl. simpl in Hfl. congruence.
Qed.

Lemma is_annotated_true g nodes n a :
  n ∈ nodes → node_annotation g n = Some a → _annotated a = true →
  is_annotated g nodes = true.
Proof.
  intros Hin Hn Ha. unfold is_annotated. apply existsb_exists.
  exists n. split; [by apply list_elem_of_In|]. by rewrite Hn.
Qed.

Lemma no_outside_users_false g p n u :
  n ∈ part_nodes p → n ≠ part_output p →
  u ∈ node_users g n → u ∉ part_nodes p →
  no_outside_users g p = false.
Proof.
  intros Hn Hout Hu Hext.
  destruct (no_outside_users g p) eqn:E; [exfalso|done].
  unfold no_outside_users in E. rewrite forallb_forall in E.
  specialize (E n (proj1 (list_elem_of_In _ _) Hn)).
  apply orb_prop in E as [E|E].
  - by apply bool_decide_eq_true in E.
  - rewrite forallb_forall in E.
    specialize (E u (proj1 (list_elem_of_In _ _) Hu)).
    by apply bool_decide_eq_true in E.
Qed.

Section AnnotatePolicy.
Context {P : Type} `{QuantizationPattern P}.
Variable find : GraphModule -> list string -> list Partition.

Lemma annotated_anchor_rejected (q : CadenceAtenQuantizer P) g p anchors n a :
  node_annotation g n = Some a → _annotated a = true →
  get_anchors (pattern q) g p = Some anchors → n ∈ anchor_nodes anchors →
  annotate_partition q g p = Ok g.
Proof.
  intros Hn Ha Hanch Hin. unfold annotate_partition.
  destruct (negb _); [done|]. rewrite Hanch.
  by rewrite (is_annotated_true g _ n a).
Qed.

Lemma annotate_partition_keeps_annotated (q : CadenceAtenQuantizer P) g p n a :
  node_annotation g n = Some a → _annotated a = true →
  node_annotation (store (annotate_partition q g p)) n = Some a.
Proof.
  intros Hn Ha. unfold annotate_partition.
  destruct (negb _); [done|].
  destruct (get_anchors _ _ _) as [anchors|]; [|done].
  destruct (is_annotated g (anchor_nodes anchors)) eqn:E; [done|].
  rewrite (assign_specs_other _ _ g g n); [done|apply no_new_sharing_refl|].
  intros m Hm. by eapply is_annotated_false_apart.
Qed.

Lemma annotate_loop_keeps_annotated (q : CadenceAtenQuantizer P) ps g n a :
  node_annotation g n = Some a → _annotated a = true →
  node_annotation (store (annotate_loop q ps g)) n = Some a.
Proof.
  revert g. induction ps as [|p ps IH]; intros g Hn Ha; [done|].
  simpl. pose proof (annotate_partition_keeps_annotated q g p n a Hn Ha) as Hp.
  destruct (annotate_partition q g p) as [g'|e g']; simpl in *; [|done].
  by apply IH.
Qed.

Lemma composable_annotate_keeps_annotated
    (qs : list (CadenceAtenQuantizer P)) g n a :
  node_annotation g n = Some a → _annotated a = true →
  node_annotation (store (composable_annotate find qs g)) n = Some a.
Proof.
  revert g. induction qs as [|q qs IH]; intros g Hn Ha; [done|].
  simpl. pose proof (annotate_loop_keeps_annotated q
    (find g (partition_types (pattern q))) g n a Hn Ha) as Hq.
  fold (annotate find q g) in Hq.
  destruct (annotate find q g) as [g'|e g']; simpl in *; [|done].
  by apply IH.
Qed.

(** C2, as the code has it: when an anchor node of a partition, in
    whichever bucket, already carries an annotation entry whose annotated
    flag is set, the partition is rejected with no write at all; and from
    then on no partition of the same annotator and no later annotator of
    the aggregate list changes that node's entry, so a second pattern
    never adds to it: the first match wins. *)
Theorem first_match_wins
    (q : CadenceAtenQuantizer P) (qs : list (CadenceAtenQuantizer P))
    g p ps anchors n a :
  node_annotation g n = Some a → _annotated a = true →
  get_anchors (pattern q) g p = Some anchors → n ∈ anchor_nodes anchors →
  annotate_partition q g p = Ok g
  ∧ node_annotation (store (annotate_loop q ps g)) n = Some a
  ∧ node_annotation (store (composable_annotate find qs g)) n = Some a.
Proof.
  intros Hn Ha Hanch Hin. split; [by eapply annotated_anchor_rejected|].
  split; [by apply annotate_loop_keeps_annotated
         |by apply composable_annotate_keeps_annotated].
Qed.

Lemma annotate_loop_skip (q : CadenceAtenQuantizer P) p ps1 ps2 g :
  (∀ g', only_annotations_differ g g' → annotate_partition q g' p = Ok g') →
  annotate_loop q (ps1 ++ p :: ps2) g = annotate_loop q (ps1 ++ ps2) g.
Proof.
  revert g. induction ps1 as [|p1 ps1 IH]; intros g Hskip; simpl.
  - by rewrite (Hskip g (only_annotations_differ_refl g)).
  - pose proof (annotate_partition_frame q g p1) as Hf.
    destruct (annotate_partition q g p1) as [g1|e g1]; simpl in *; [|done].
    apply IH. intros g' Hg'. apply Hskip.
    by eapply only_annotations_differ_trans.
Qed.

(** C3, as the code has it: a partition in which a node other than the
    designated output has a consumer outside the partition is skipped: its
    iteration returns normally with the store exactly as it was, and the
    whole loop over the discovered partitions gives the same outcome as the
    loop without that partition, so the pass makes no write for it. *)
Theorem outside_user_partition_skipped
    (q : CadenceAtenQuantizer P) g p ps1 ps2 n u :
  n ∈ part_nodes p → n ≠ part_output p →
  u ∈ node_users g n → u ∉ part_nodes p →
  annotate_partition q g p = Ok g
  ∧ annotate_loop q (ps1 ++ p :: ps2) g = annotate_loop q (ps1 ++ ps2) g.
Proof.
  intros Hn Hout Hu Hext.
  assert (Hskip : ∀ g', only_annotations_differ g g' →
                        annotate_partition q g' p = Ok g').
  { intros g' Hg'. unfold annotate_partition.
    rewrite (no_outside_users_false g' p n u); try done.
    by rewrite <- (only_annotations_differ_users g g'). }
  split; [apply Hskip, only_annotations_differ_refl|].
  by apply annotate_loop_skip.
Qed.
End AnnotatePolicy.

(** ** Writes of [annotate_inputs] and of the output loop *)

Lemma py_index_Some_heap g n idx key :
  py_index (node_args g n) idx = Some key → is_Some (heap g !! n).
Proof.
  unfold node_args, py_index. destruct (heap g !! n); [eauto|].
  simpl. by repeat case_match.
Qed.

Lemma only_annotations_differ_args g1 g2 n :
  only_annotations_differ g1 g2 → node_args g1 n = node_args g2 n.
Proof.
  intros [_ Hf]. specialize (Hf n). unfold node_args.
  destruct (heap g1 !! n) as [nd1|], (heap g2 !! n) as [nd2|];
    simpl in *; try done.
  by injection Hf as _ -> _ _.
Qed.

Lemma shares_dec g n m : {shares g n m} + {¬ shares g n m}.
Proof.
  unfold shares. destruct (node_ref g n) as [o|]; [|right; by intros (? & ? & ?)].
  destruct (decide (node_ref g m = Some o)) as [Hm|Hm].
  - left. by exists o.
  - right. intros (o' & [= <-] & Hm'). done.
Qed.

(** A write that reaches the record of [n] later reached it from the
    start: records come to be shared only before the pass. *)
Lemma writes_to_base gb g n k x :
  only_annotations_differ gb g → no_new_sharing gb g →
  writes_to g n k x → writes_to gb n k x.
Proof.
  intros Hf Hs [Hn Hk]. split.
  - destruct (decide (x.1.1 = n)) as [|Hne]; [by left|right].
    destruct Hn as [|Hn]; [done|]. apply Hs; [congruence|done].
  - by rewrite (only_annotations_differ_args gb g).
Qed.

(** Through a bucket the record of a node stays the same object and keeps
    its output spec, its flag and its keys; a key that no anchor writes to
    keeps its value. *)
Lemma annotate_inputs_merge ins spec gb g n a :
  only_annotations_differ gb g → no_new_sharing gb g →
  node_annotation g n = Some a →
  ∃ a', node_annotation (store (annotate_inputs ins spec g)) n = Some a'
        ∧ output_qspec a' = output_qspec a
        ∧ _annotated a' = _annotated a
        ∧ (∀ k, is_Some (input_qspec_map a !! k) →
                is_Some (input_qspec_map a' !! k))
        ∧ (∀ k, (∀ x : InputAnchor, x ∈ ins → ¬ writes_to gb n k x) →
                input_qspec_map a' !! k = input_qspec_map a !! k)
        ∧ node_ref (store (annotate_inputs ins spec g)) n = node_ref g n.
Proof.
  revert g a. induction ins as [|[[m idx] cs] ins IH]; intros g a Hf Hs Hn.
  { exists a. by repeat split. }
  simpl. destruct (py_index (node_args g m) idx) as [key|] eqn:Hkey.
  2:{ exists a. by repeat split. }
  set (v := custom_or cs spec).
  assert (Hf1 : only_annotations_differ gb (annotate_input m key v g)).
  { eapply only_annotations_differ_trans; [exact Hf|].
    apply only_annotations_differ_input. }
  assert (Hs1 : no_new_sharing gb (annotate_input m key v g)).
  { eapply no_new_sharing_trans; [exact Hs|].
    intros x y Hxy. by apply shares_annotate_input. }
  assert (Hr1 : node_ref (annotate_input m key v g) n = node_ref g n).
  { destruct (decide (m = n)) as [->|Hne].
    - by eapply node_ref_annotate_input_has.
    - by apply node_ref_annotate_input_ne. }
  destruct (decide (m = n)) as [Hmn|Hmn];
    [|destruct (shares_dec g n m) as [Hsh|Hsh]].
  1,2: assert (Hto : m = n ∨ shares g n m) by auto;
       destruct (IH (annotate_input m key v g) (set_input_qspec key v a))
         as (a' & Ha' & Ho & Hfl & Hk & Hu & Hr); try done;
       [by apply annotate_input_shared|];
       exists a'; split; [done|]; split; [done|]; split; [done|];
       split; [|split; [|congruence]].
  1,3: intros k Hsome; apply Hk; simpl;
       destruct (decide (key = k)) as [->|Hkk];
       [rewrite lookup_insert_eq; eauto|by rewrite lookup_insert_ne].
  1,2: intros k Hfree; rewrite Hu by (intros x Hx; apply Hfree; by right);
       simpl; apply lookup_insert_ne; intros ->;
       apply (Hfree (m, idx, cs)); [left|];
       apply (writes_to_base gb g); [done|done|]; by split.
  destruct (IH (annotate_input m key v g) a) as (a' & Ha' & Ho & Hfl & Hk & Hu & Hr);
    try done.
  { by rewrite annotate_input_unrelated. }
  exists a'. split; [done|]. split; [done|]. split; [done|]. split; [done|].
  split; [|congruence].
  intros k Hfree. apply Hu. intros x Hx. apply Hfree. by right.
Qed.

Lemma annotate_output_replaces spec g n cs :
  is_Some (heap g !! n) →
  node_annotation (annotate_output spec g (n, cs)) n
  = Some (QuantizationAnnotation_new (custom_or cs spec) true).
Proof. intros Hn. simpl. by apply node_annotation_set_eq. Qed.

(** C1, as the code has it: a write from the inputs, weights or biases
    bucket updates in place the record the node already refers to: the node
    keeps that same record, with its output spec, its flag and every key of
    its input map, keys that no anchor of the bucket writes to keep their
    value, and every node that refers to the same record sees the result.
    A write from the output bucket makes the node refer to a new record
    holding only the output spec and the flag, whatever it held before, and
    leaves the entries of all other nodes as they are. *)
Theorem input_writes_merge_output_writes_replace
    ins outs_custom spec g n a :
  node_annotation g n = Some a →
  (∃ a', node_annotation (store (annotate_inputs ins spec g)) n = Some a'
         ∧ output_qspec a' = output_qspec a
         ∧ _annotated a' = _annotated a
         ∧ (∀ k, is_Some (input_qspec_map a !! k) →
                 is_Some (input_qspec_map a' !! k))
         ∧ (∀ k, (∀ x : InputAnchor, x ∈ ins → ¬ writes_to g n k x) →
                 input_qspec_map a' !! k = input_qspec_map a !! k)
         ∧ node_ref (store (annotate_inputs ins spec g)) n = node_ref g n
         ∧ ∀ m, shares g n m →
                node_annotation (store (annotate_inputs ins spec g)) m = Some a')
  ∧ node_annotation (annotate_output spec g (n, outs_custom)) n
    = Some (QuantizationAnnotation_new (custom_or outs_custom spec) true)
  ∧ ∀ m, m ≠ n →
         node_annotation (annotate_output spec g (n, outs_custom)) m
         = node_annotation g m.
Proof.
  intros Hn. split; [|split].
  - destruct (annotate_inputs_merge ins spec g g n a)
      as (a' & Ha' & Ho & Hfl & Hk & Hu & Hr);
      [apply only_annotations_differ_refl|apply no_new_sharing_refl|done|].
    exists a'. do 5 (split; [done|]). split; [done|].
    intros m (o & Hno & Hmo).
    assert (Hm : node_annotation g m = Some a).
    { unfold node_annotation in *. by rewrite Hmo, <- Hno. }
    destruct (annotate_inputs_merge ins spec g g m a)
      as (am & Ham & _ & _ & _ & _ & Hrm);
      [apply only_annotations_differ_refl|apply no_new_sharing_refl|done|].
    unfold node_annotation in *. by rewrite Hrm, Hmo, <- Hno, <- Hr.
  - apply annotate_output_replaces. by eapply node_annotation_is_Some_heap.
  - intros m Hne. simpl. by apply node_annotation_set_ne.
Qed.

Lemma valid_anchor_frame g1 g2 x :
  only_annotations_differ g1 g2 → valid_anchor g1 x → valid_anchor g2 x.
Proof.
  intros Hf. unfold valid_anchor.
  by rewrite (only_annotations_differ_args g1 g2).
Qed.

Lemma annotate_inputs_returns ins spec g :
  Forall (valid_anchor g) ins → ∃ g', annotate_inputs ins spec g = Ok g'.
Proof.
  revert g. induction ins as [|[[m idx] cs] ins IH]; intros g Hv; [by eexists|].
  apply Forall_cons in Hv as [[key Hkey] Hv]. simpl in *. rewrite Hkey.
  apply IH. eapply Forall_impl; [exact Hv|]. intros x.
  apply valid_anchor_frame, only_annotations_differ_input.
Qed.

(** A key of the record of [n] keeps the value [v] through a bucket whose
    writes to that key all write [v]. *)
Lemma annotate_inputs_keeps_key ins spec v gb g n a k :
  only_annotations_differ gb g → no_new_sharing gb g →
  (∀ x : InputAnchor, x ∈ ins → writes_to gb n k x → custom_or x.2 spec = v) →
  node_annotation g n = Some a → input_qspec_map a !! k = Some v →
  ∃ a', node_annotation (store (annotate_inputs ins spec g)) n = Some a'
        ∧ input_qspec_map a' !! k = Some v.
Proof.
  revert g a. induction ins as [|[[m idx] cs] ins IH]; intros g a Hf Hs Hc Hn Hk.
  { by exists a. }
  simpl. destruct (py_index (node_args g m) idx) as [key|] eqn:Hkey;
    [|by exists a].
  set (w := custom_or cs spec).
  assert (Hf1 : only_annotations_differ gb (annotate_input m key w g)).
  { eapply only_annotations_differ_trans; [exact Hf|].
    apply only_annotations_differ_input. }
  assert (Hs1 : no_new_sharing gb (annotate_input m key w g)).
  { eapply no_new_sharing_trans; [exact Hs|].
    intros x y Hxy. by apply shares_annotate_input. }
  assert (Hc' : ∀ x : InputAnchor, x ∈ ins → writes_to gb n k x →
                                   custom_or x.2 spec = v)
    by (intros x Hx; apply Hc; by right).
  destruct (decide (m = n)) as [Hmn|Hmn];
    [|destruct (shares_dec g n m) as [Hsh|Hsh]].
  1,2: assert (Hto : m = n ∨ shares g n m) by auto;
       apply (IH (annotate_input m key w g) (set_input_qspec key w a));
       [done|done|done|by apply annotate_input_shared|];
       simpl; destruct (decide (key = k)) as [->|Hkk];
       [|by rewrite lookup_insert_ne];
       rewrite lookup_insert_eq; f_equal;
       apply (Hc (m, idx, cs)); [left|];
       apply (writes_to_base gb g); [done|done|]; by split.
  apply (IH (annotate_input m key w g) a); try done.
  by rewrite annotate_input_unrelated.
Qed.

Lemma annotate_inputs_sets_key ins spec v gb g n idx cs k :
  only_annotations_differ gb g → no_new_sharing gb g →
  Forall (valid_anchor g) ins →
  (n, idx, cs) ∈ ins → py_index (node_args g n) idx = Some k →
  (∀ x : InputAnchor, x ∈ ins → writes_to gb n k x → custom_or x.2 spec = v) →
  ∃ a', node_annotation (store (annotate_inputs ins spec g)) n = Some a'
        ∧ input_qspec_map a' !! k = Some v.
Proof.
  revert g. induction ins as [|[[m idx'] cs'] ins IH];
    intros g Hf Hs Hv Hin Hkey Hc.
  { by apply elem_of_nil in Hin. }
  assert (Hc' : ∀ x : InputAnchor, x ∈ ins → writes_to gb n k x →
                                   custom_or x.2 spec = v)
    by (intros x Hx; apply Hc; by right).
  apply Forall_cons in Hv as [[key Hk] Hv]. simpl in Hk.
  set (w := custom_or cs' spec).
  assert (Hf1 : only_annotations_differ gb (annotate_input m key w g)).
  { eapply only_annotations_differ_trans; [exact Hf|].
    apply only_annotations_differ_input. }
  assert (Hs1 : no_new_sharing gb (annotate_input m key w g)).
  { eapply no_new_sharing_trans; [exact Hs|].
    intros x y Hxy. by apply shares_annotate_input. }
  apply elem_of_cons in Hin as [Heq|Hin].
  - injection Heq as <- <- <-. assert (key = k) as -> by congruence.
    simpl. rewrite Hkey.
    eapply (annotate_inputs_keeps_key ins spec v gb); [done|done|done| |].
    + apply annotate_input_self. by eapply py_index_Some_heap.
    + simpl. rewrite lookup_insert_eq. f_equal.
      apply (Hc (n, idx, cs)); [left|]. split; [by left|]. simpl.
      by rewrite (only_annotations_differ_args gb g).
  - simpl. rewrite Hk. apply IH; try done.
    + eapply Forall_impl; [exact Hv|]. intros x.
      apply valid_anchor_frame, only_annotations_differ_input.
    + by rewrite node_args_annotate_input.
Qed.

(** The three buckets in turn, each returning normally. *)
Lemma assign_specs_stages c a g :
  Forall (valid_anchor g) (inputs a ++ weights a ++ biases a) →
  ∃ g1 g2 g3,
    annotate_inputs (inputs a) (input_activation c)
      (annotate_outputs (output a) (output_activation c) g) = Ok g1
    ∧ annotate_inputs (weights a) (weight c) g1 = Ok g2
    ∧ annotate_inputs (biases a) (bias c) g2 = Ok g3
    ∧ assign_specs c a g = Ok g3
    ∧ (only_annotations_differ g
         (annotate_outputs (output a) (output_activation c) g)
       ∧ no_new_sharing g
           (annotate_outputs (output a) (output_activation c) g))
    ∧ (only_annotations_differ g g1 ∧ no_new_sharing g g1)
    ∧ (only_annotations_differ g g2 ∧ no_new_sharing g g2).
Proof.
  intros Hv. apply Forall_app in Hv as [Hvi Hv].
  apply Forall_app in Hv as [Hvw Hvb]. unfold assign_specs.
  pose proof (annotate_outputs_frame (output a) (output_activation c) g) as F0.
  pose proof (annotate_outputs_sharing (output a) (output_activation c) g) as S0.
  set (g0 := annotate_outputs (output a) (output_activation c) g) in *.
  destruct (annotate_inputs_returns (inputs a) (input_activation c) g0)
    as [g1 E1].
  { eapply Forall_impl; [exact Hvi|]. intros x. by apply valid_anchor_frame. }
  pose proof (annotate_inputs_frame (inputs a) (input_activation c) g0) as F1.
  pose proof (annotate_inputs_sharing (inputs a) (input_activation c) g0) as S1.
  rewrite E1 in *. simpl in F1, S1.
  assert (F01 : only_annotations_differ g g1)
    by (by eapply only_annotations_differ_trans).
  assert (S01 : no_new_sharing g g1) by (by eapply no_new_sharing_trans).
  destruct (annotate_inputs_returns (weights a) (weight c) g1) as [g2 E2].
  { eapply Forall_impl; [exact Hvw|]. intros x. by apply valid_anchor_frame. }
  pose proof (annotate_inputs_frame (weights a) (weight c) g1) as F2.
  pose proof (annotate_inputs_sharing (weights a) (weight c) g1) as S2.
  rewrite E2 in F2, S2. simpl in F2, S2.
  assert (F02 : only_annotations_differ g g2)
    by (by eapply only_annotations_differ_trans).
  assert (S02 : no_new_sharing g g2) by (by eapply no_new_sharing_trans).
  destruct (annotate_inputs_returns (biases a) (bias c) g2) as [g3 E3].
  { eapply Forall_impl; [exact Hvb|]. intros x. by apply valid_anchor_frame. }
  exists g1, g2, g3. simpl. rewrite E2. simpl. by rewrite E3.
Qed.

Section BiasEntry.
Context {P : Type} `{QuantizationPattern P}.

Lemma annotate_partition_accepted (q : CadenceAtenQuantizer P) g p a :
  no_outside_users g p = true →
  get_anchors (pattern q) g p = Some a →
  is_annotated g (anchor_nodes a) = false →
  annotate_partition q g p = assign_specs (quantization_config q) a g.
Proof. intros Hno Ha Hann. unfold annotate_partition. by rewrite Hno, Ha, Hann. Qed.

(** C10, as the code has it: with no bias spec in the configuration, a
    bias anchor of an accepted partition that carries no custom spec gets
    an entry in its node's input map: the bias edge is a key of the map and
    the value under it is [None], provided no bias anchor that writes to
    that key of the same record carries a custom spec. *)
Theorem bias_edge_mapped_to_None
    (q : CadenceAtenQuantizer P) g p anchors n idx key :
  no_outside_users g p = true →
  get_anchors (pattern q) g p = Some anchors →
  is_annotated g (anchor_nodes anchors) = false →
  bias (quantization_config q) = None →
  Forall (valid_anchor g) (inputs anchors ++ weights anchors ++ biases anchors) →
  (∀ x : InputAnchor, x ∈ biases anchors → writes_to g n key x → x.2 = []) →
  (n, idx, []) ∈ biases anchors →
  py_index (node_args g n) idx = Some key →
  ∃ g' a, annotate_partition q g p = Ok g'
          ∧ node_annotation g' n = Some a
          ∧ input_qspec_map a !! key = Some None.
Proof.
  intros Hno Hanch Hann Hbias Hv Hcs Hin Hkey.
  rewrite (annotate_partition_accepted q g p anchors) by done.
  destruct (assign_specs_stages (quantization_config q) anchors g Hv)
    as (g1 & g2 & g3 & E1 & E2 & E3 & E & _ & _ & [F2 S2]).
  apply Forall_app in Hv as [_ Hv]. apply Forall_app in Hv as [_ Hvb].
  destruct (annotate_inputs_sets_key (biases anchors)
              (bias (quantization_config q)) None g g2 n idx [] key)
    as (a & Ha & Hk); try done.
  - eapply Forall_impl; [exact Hvb|]. intros x. by apply valid_anchor_frame.
  - by rewrite <- (only_annotations_differ_args g g2).
  - intros x Hx Hw. by rewrite (Hcs x Hx Hw), Hbias.
  - rewrite E3 in Ha. by exists g3, a.
Qed.
End BiasEntry.
(** ** The pass reads wiring and annotations only *)

Lemma structurally_identical_args g1 g2 n :
  structurally_identical g1 g2 → node_args g1 n = node_args g2 n.
Proof.
  intros [_ Hw]. specialize (Hw n). unfold node_args.
  destruct (heap g1 !! n), (heap g2 !! n); simpl in *; try done.
  by injection Hw as _ -> _.
Qed.

Lemma structurally_identical_users g1 g2 n :
  structurally_identical g1 g2 → node_users g1 n = node_users g2 n.
Proof.
  intros [_ Hw]. specialize (Hw n). unfold node_users.
  destruct (heap g1 !! n), (heap g2 !! n); simpl in *; try done.
  by injection Hw as _ _ ->.
Qed.

Lemma structurally_identical_target g1 g2 n :
  structurally_identical g1 g2 → node_target g1 n = node_target g2 n.
Proof.
  intros [_ Hw]. specialize (Hw n). unfold node_target.
  destruct (heap g1 !! n), (heap g2 !! n); simpl in *; try done.
  by injection Hw as -> _ _.
Qed.

Lemma structurally_identical_heap g1 g2 n :
  structurally_identical g1 g2 →
  is_Some (heap g1 !! n) ↔ is_Some (heap g2 !! n).
Proof.
  intros [_ Hw]. specialize (Hw n). rewrite <- !(fmap_is_Some wiring).
  by rewrite Hw.
Qed.

Lemma structurally_identical_set n a b g1 g2 :
  structurally_identical g1 g2 →
  structurally_identical (set_annotation n a g1) (set_annotation n b g2).
Proof.
  intros [Hn Hw]. split; [by rewrite !graph_nodes_set_annotation|].
  intros m. rewrite !heap_set_annotation.
  case_decide as Hd; [subst m|done]. specialize (Hw n).
  destruct (heap g1 !! n), (heap g2 !! n); simpl in *; done.
Qed.

Lemma structurally_identical_input n k v g1 g2 :
  structurally_identical g1 g2 →
  structurally_identical (annotate_input n k v g1) (annotate_input n k v g2).
Proof.
  intros Hs. unfold annotate_input.
  destruct (node_object g1 n) as [[o1 a1]|], (node_object g2 n) as [[o2 a2]|];
    try by apply structurally_identical_set.
  - done.
  - destruct Hs as [Hn Hw]. split; [by rewrite graph_nodes_set_annotation|].
    intros m. rewrite heap_set_annotation. simpl.
    case_decide as Hd; [subst m|done]. specialize (Hw n).
    destruct (heap g1 !! n), (heap g2 !! n); simpl in *; done.
  - destruct Hs as [Hn Hw]. split; [by rewrite graph_nodes_set_annotation|].
    intros m. rewrite heap_set_annotation. simpl.
    case_decide as Hd; [subst m|done]. specialize (Hw n).
    destruct (heap g1 !! n), (heap g2 !! n); simpl in *; done.
Qed.

Lemma same_annotations_value g1 g2 n :
  same_annotations g1 g2 → node_annotation g1 n = node_annotation g2 n.
Proof. intros [Hr Ho]. unfold node_annotation. by rewrite Hr, Ho. Qed.

Lemma same_annotations_object g1 g2 n :
  same_annotations g1 g2 → node_object g1 n = node_object g2 n.
Proof. intros [Hr Ho]. unfold node_object. by rewrite Hr, Ho. Qed.

Lemma same_annotations_new_id g1 g2 :
  same_annotations g1 g2 → new_object_id g1 = new_object_id g2.
Proof.
  intros [Hr Ho]. unfold new_object_id. f_equal. apply set_eq. intros o.
  rewrite !elem_of_object_ids, Ho.
  split; (intros [?|[n Hn]]; [by left|right; exists n]); congruence.
Qed.

Lemma same_annotations_set n a g1 g2 :
  structurally_identical g1 g2 → same_annotations g1 g2 →
  same_annotations (set_annotation n a g1) (set_annotation n a g2).
Proof.
  intros Hs Ha. pose proof (same_annotations_new_id g1 g2 Ha) as Hid.
  pose proof (structurally_identical_heap g1 g2 n Hs) as Hh.
  destruct Ha as [Hr Ho]. split.
  - intros m. destruct (decide (n = m)) as [<-|Hne].
    + destruct (heap g1 !! n) as [nd|] eqn:E.
      * rewrite !node_ref_set_eq; [by rewrite Hid|by apply Hh|eauto].
      * assert (E2 : heap g2 !! n = None).
        { destruct (heap g2 !! n) eqn:E2; [|done].
          by destruct (proj2 Hh (mk_is_Some _ _ eq_refl)). }
        unfold set_annotation. rewrite E, E2. apply Hr.
    + rewrite !node_ref_set_ne by done. apply Hr.
  - unfold set_annotation. destruct (heap g1 !! n) as [nd|] eqn:E.
    + destruct (proj1 Hh (mk_is_Some _ _ eq_refl)) as [nd2 E2].
      rewrite E2. simpl. by rewrite Hid, Ho.
    + assert (E2 : heap g2 !! n = None).
      { destruct (heap g2 !! n) eqn:E2; [|done].
        by destruct (proj2 Hh (mk_is_Some _ _ eq_refl)). }
      by rewrite E2.
Qed.

Lemma same_annotations_input n k v g1 g2 :
  structurally_identical g1 g2 → same_annotations g1 g2 →
  structurally_identical (annotate_input n k v g1) (annotate_input n k v g2)
  ∧ same_annotations (annotate_input n k v g1) (annotate_input n k v g2).
Proof.
  intros Hs Ha. split; [by apply structurally_identical_input|].
  unfold annotate_input. rewrite <- (same_annotations_object g1 g2 n Ha).
  destruct (node_object g1 n) as [[o a]|]; [|by apply same_annotations_set].
  destruct Ha as [Hr Ho]. split; [done|]. simpl. by rewrite Ho.
Qed.

Lemma is_annotated_agree g1 g2 nodes :
  same_annotations g1 g2 → is_annotated g1 nodes = is_annotated g2 nodes.
Proof.
  intros Ha. unfold is_annotated.
  induction nodes as [|n nodes IH]; [done|]. simpl.
  by rewrite (same_annotations_value g1 g2 n Ha), IH.
Qed.

Lemma forallb_pointwise {A} (f1 f2 : A → bool) l :
  (∀ x, f1 x = f2 x) → forallb f1 l = forallb f2 l.
Proof. intros Hf. induction l as [|x l IH]; [done|]. simpl. by rewrite Hf, IH. Qed.

Lemma no_outside_users_agree g1 g2 p :
  structurally_identical g1 g2 → no_outside_users g1 p = no_outside_users g2 p.
Proof.
  intros Hs. unfold no_outside_users. apply forallb_pointwise. intros n.
  by rewrite (structurally_identical_users g1 g2 n).
Qed.

Lemma annotate_outputs_agree outs spec g1 g2 :
  structurally_identical g1 g2 → same_annotations g1 g2 →
  structurally_identical (annotate_outputs outs spec g1)
                         (annotate_outputs outs spec g2)
  ∧ same_annotations (annotate_outputs outs spec g1)
                     (annotate_outputs outs spec g2).
Proof.
  revert g1 g2. unfold annotate_outputs.
  induction outs as [|[out cs] outs IH]; intros g1 g2 Hs Ha; [done|].
  simpl. apply IH;
    [by apply structurally_identical_set|by apply same_annotations_set].
Qed.

Lemma annotate_inputs_agree ins spec g1 g2 :
  structurally_identical g1 g2 → same_annotations g1 g2 →
  same_outcome (annotate_inputs ins spec g1) (annotate_inputs ins spec g2).
Proof.
  revert g1 g2. induction ins as [|[[m idx] cs] ins IH]; intros g1 g2 Hs Ha.
  { by split. }
  simpl. rewrite <- (structurally_identical_args g1 g2 m) by done.
  destruct (py_index (node_args g1 m) idx) as [key|]; [|by simpl].
  apply IH; by apply same_annotations_input.
Qed.

Lemma bind_agree r1 r2 k1 k2 :
  same_outcome r1 r2 →
  (∀ g1 g2, structurally_identical g1 g2 → same_annotations g1 g2 →
            same_outcome (k1 g1) (k2 g2)) →
  same_outcome (r1 >>> k1) (r2 >>> k2).
Proof.
  intros Hr Hk. destruct r1 as [g1|e1 g1], r2 as [g2|e2 g2]; simpl in *;
    try done.
  destruct Hr. by apply Hk.
Qed.

Lemma assign_specs_agree c a g1 g2 :
  structurally_identical g1 g2 → same_annotations g1 g2 →
  same_outcome (assign_specs c a g1) (assign_specs c a g2).
Proof.
  intros Hs Ha. unfold assign_specs.
  repeat apply bind_agree; try (intros; by apply annotate_inputs_agree).
  destruct (annotate_outputs_agree (output a) (output_activation c) g1 g2)
    as [Hs' Ha']; try done.
  by apply annotate_inputs_agree.
Qed.

Lemma chains_from_agree g1 g2 sig n :
  structurally_identical g1 g2 → chains_from g1 sig n = chains_from g2 sig n.
Proof.
  intros Hs. revert n. induction sig as [|k sig IH]; intros n; [done|].
  simpl. rewrite (structurally_identical_users g1 g2 n) by done.
  apply flat_map_ext. intros u.
  by rewrite (structurally_identical_target g1 g2 u), IH.
Qed.

Lemma chain_finder_agree g1 g2 sig :
  structurally_identical g1 g2 → chain_finder g1 sig = chain_finder g2 sig.
Proof.
  intros Hs. destruct sig as [|k sig]; [done|]. simpl.
  destruct Hs as [Hn Hw]. rewrite Hn. apply flat_map_ext. intros n.
  rewrite (structurally_identical_target g1 g2 n) by done.
  by rewrite (chains_from_agree g1 g2 sig n).
Qed.

Lemma addmm_get_anchors_agree g1 g2 p :
  structurally_identical g1 g2 →
  addmm_get_anchors g1 p = addmm_get_anchors g2 p.
Proof.
  intros Hs. unfold addmm_get_anchors.
  destruct (part_nodes p) as [|mm [|add [|]]]; try done.
  by rewrite (structurally_identical_args g1 g2 add).
Qed.

Section Determinism.
Context {P : Type} `{QuantizationPattern P}.
Variable find : GraphModule -> list string -> list Partition.

Lemma annotate_partition_agree (q : CadenceAtenQuantizer P) g1 g2 p :
  reads_graph_only (pattern q) →
  structurally_identical g1 g2 → same_annotations g1 g2 →
  same_outcome (annotate_partition q g1 p) (annotate_partition q g2 p).
Proof.
  intros Hq Hs Ha. unfold annotate_partition.
  rewrite <- (no_outside_users_agree g1 g2 p) by done.
  destruct (negb _); [by split|].
  rewrite <- (Hq g1 g2 p) by done.
  destruct (get_anchors _ _ _) as [anchors|]; [|by split].
  rewrite <- (is_annotated_agree g1 g2) by done.
  destruct (is_annotated _ _); [by split|].
  by apply assign_specs_agree.
Qed.

Lemma annotate_loop_agree (q : CadenceAtenQuantizer P) ps g1 g2 :
  reads_graph_only (pattern q) →
  structurally_identical g1 g2 → same_annotations g1 g2 →
  same_outcome (annotate_loop q ps g1) (annotate_loop q ps g2).
Proof.
  intros Hq. revert g1 g2. induction ps as [|p ps IH]; intros g1 g2 Hs Ha.
  { by split. }
  simpl. apply bind_agree; [by apply annotate_partition_agree|].
  intros. by apply IH.
Qed.

Lemma annotate_agree (q : CadenceAtenQuantizer P) g1 g2 :
  reads_graph_only_find find → reads_graph_only (pattern q) →
  structurally_identical g1 g2 → same_annotations g1 g2 →
  same_outcome (annotate find q g1) (annotate find q g2).
Proof.
  intros Hf Hq Hs Ha. unfold annotate.
  rewrite <- (Hf g1 g2) by done. by apply annotate_loop_agree.
Qed.

(** C4, as the code has it: two structurally identical graphs that also
    carry, when the pass starts, the same annotation records referred to by
    the same nodes end the aggregate pass with the same outcome and the
    same annotation records, for a partition finder and patterns that give
    equal results on two such graphs. *)
Theorem annotate_deterministic_in_structure_and_annotations
    (qs : list (CadenceAtenQuantizer P)) g1 g2 :
  reads_graph_only_find find →
  Forall (fun q => reads_graph_only (pattern q)) qs →
  structurally_identical g1 g2 → same_annotations g1 g2 →
  same_outcome (composable_annotate find qs g1)
               (composable_annotate find qs g2).
Proof.
  intros Hf Hqs. revert g1 g2.
  induction Hqs as [|q qs Hq Hqs IH]; intros g1 g2 Hs Ha.
  { by split. }
  simpl. apply bind_agree; [by apply annotate_agree|].
  intros. by apply IH.
Qed.
End Determinism.

(** ** Concrete runs *)

Lemma addmm_graph_partitions :
  chain_finder addmm_graph ["mm"; "add"] = [addmm_partition].
Proof. vm_compute. reflexivity. Qed.

Lemma addmm_graph_annotated_add :
  node_annotation (store (annotate chain_finder addmm_quantizer addmm_graph))
    5%positive = Some add_entry.
Proof. vm_compute. reflexivity. Qed.

Lemma addmm_graph_traced_identical :
  structurally_identical addmm_graph addmm_graph_traced
  ∧ same_annotations addmm_graph addmm_graph_traced.
Proof.
  split; [split; [done|]|split; [|done]]; intros n;
    unfold node_ref, addmm_graph_traced;
    simpl heap; rewrite lookup_alter; case_decide as Hd; try done; subst n;
    by destruct (heap addmm_graph !! 4%positive).
Qed.

(** C1, counterexample.  First run: node 3 holds an entry with an
    input-map key for its second argument and an output spec; the add
    partition is accepted, and the write for its output anchor puts a new
    entry in its place, so after the pass the key of the second argument is
    gone and the output spec is the configured one.  Second run: a pattern
    lists the add node twice in its output bucket; the first write records
    the custom output spec, the second replaces that entry and the custom
    spec is lost. *)
Lemma output_write_discards_existing_entry :
  (node_annotation stale_graph 3%positive = Some stale_annotation
   ∧ input_qspec_map stale_annotation !! ArgNode 2 = Some (Some (QSpec wgt_qspec))
   ∧ output_qspec stale_annotation = Some (QSpec wgt_qspec)
   ∧ ∃ g' a', annotate chain_finder add_quantizer stale_graph = Ok g'
              ∧ node_annotation g' 3%positive = Some a'
              ∧ input_qspec_map a' !! ArgNode 2 = None
              ∧ input_qspec_map a' !! ArgNode 1 = Some (Some (QSpec act_qspec))
              ∧ output_qspec a' = Some (QSpec act_qspec))
  ∧ (node_annotation addmm_graph 5%positive = None
     ∧ output_qspec
         <$> node_annotation
               (annotate_output (Some act_qspec) addmm_graph
                  (5%positive, [QSpec wgt_qspec])) 5%positive
       = Some (Some (QSpec wgt_qspec))
     ∧ ∃ g' a', annotate chain_finder
                  (mkQuantizer (doubled_output_pattern "add") _default_qconfig)
                  addmm_graph = Ok g'
                ∧ node_annotation g' 5%positive = Some a'
                ∧ output_qspec a' = Some (QSpec act_qspec)).
Proof.
  split.
  - split; [by vm_compute|]. split; [by vm_compute|]. split; [done|].
    eexists _, _. split; [vm_compute; reflexivity|].
    split; [vm_compute; reflexivity|]. by vm_compute.
  - split; [by vm_compute|]. split; [by vm_compute|].
    eexists _, _. split; [vm_compute; reflexivity|].
    split; [vm_compute; reflexivity|]. by vm_compute.
Qed.

(** The two kinds of write on node 3 of [shared_graph], whose record node 4
    refers to as well. *)
Lemma input_writes_merge_output_writes_replace_witness :
  (∃ a', node_annotation
           (store (annotate_inputs [(3%positive, 0, [])] (Some act_qspec)
                     shared_graph)) 3%positive = Some a'
         ∧ output_qspec a' = Some (QSpec wgt_qspec)
         ∧ _annotated a' = false
         ∧ is_Some (input_qspec_map a' !! ArgNode 2)
         ∧ node_annotation
             (store (annotate_inputs [(3%positive, 0, [])] (Some act_qspec)
                       shared_graph)) 4%positive = Some a')
  ∧ node_annotation
      (annotate_output (Some act_qspec) shared_graph (3%positive, []))
      3%positive
    = Some (QuantizationAnnotation_new (Some (QSpec act_qspec)) true)
  ∧ node_annotation
      (annotate_output (Some act_qspec) shared_graph (3%positive, []))
      4%positive
    = Some stale_annotation.
Proof.
  destruct (input_writes_merge_output_writes_replace
              [(3%positive, 0, [])] [] (Some act_qspec) shared_graph 3%positive
              stale_annotation)
    as [(a' & Ha' & Ho & Hf & Hk & _ & _ & Hsh) [Hout Hoth]].
  { vm_compute. reflexivity. }
  split; [|split].
  - exists a'. split; [done|]. split; [done|]. split; [done|].
    split; [apply Hk; vm_compute; eauto|].
    apply Hsh. exists 1%positive. split; vm_compute; reflexivity.
  - exact Hout.
  - rewrite Hoth by done. vm_compute. reflexivity.
Defined.

(** After the addmm annotator has run on [addmm_graph], a one-operator
    pattern on the add node finds it annotated. *)
Lemma first_match_wins_witness :
  annotate_partition add_quantizer
    (store (annotate chain_finder addmm_quantizer addmm_graph)) add_partition
  = Ok (store (annotate chain_finder addmm_quantizer addmm_graph))
  ∧ node_annotation
      (store (annotate_loop add_quantizer [add_partition]
                (store (annotate chain_finder addmm_quantizer addmm_graph))))
      5%positive = Some add_entry
  ∧ node_annotation
      (store (composable_annotate chain_finder [add_quantizer]
                (store (annotate chain_finder addmm_quantizer addmm_graph))))
      5%positive = Some add_entry.
Proof.
  apply (first_match_wins chain_finder add_quantizer [add_quantizer]
           (store (annotate chain_finder addmm_quantizer addmm_graph))
           add_partition [add_partition]
           {| inputs := [(5%positive, 0, [])]; weights := []; biases := [];
              output := [(5%positive, [])] |}
           5%positive add_entry).
  - vm_compute. reflexivity.
  - reflexivity.
  - reflexivity.
  - vm_compute. left.
Defined.

(** In [branching_graph] the mm node feeds node 7 outside the partition. *)
Lemma outside_user_partition_skipped_witness :
  annotate_partition addmm_quantizer branching_graph addmm_partition
  = Ok branching_graph
  ∧ annotate_loop addmm_quantizer ([] ++ addmm_partition :: [add_partition])
      branching_graph
    = annotate_loop addmm_quantizer ([] ++ [add_partition]) branching_graph.
Proof.
  apply (outside_user_partition_skipped addmm_quantizer branching_graph
           addmm_partition [] [add_partition] 4%positive 7%positive).
  - vm_compute. left.
  - discriminate.
  - vm_compute. right. left.
  - vm_compute. intros Hin. inversion Hin as [|? ? ? Hin']; subst.
    inversion Hin' as [|? ? ? Hin'']; subst. inversion Hin''.
Defined.

(** [addmm_graph] and [addmm_graph_traced] differ in other metadata only. *)
Lemma annotate_deterministic_in_structure_and_annotations_witness :
  same_outcome (composable_annotate chain_finder [addmm_quantizer] addmm_graph)
               (composable_annotate chain_finder [addmm_quantizer]
                  addmm_graph_traced).
Proof.
  apply (annotate_deterministic_in_structure_and_annotations chain_finder
           [addmm_quantizer] addmm_graph addmm_graph_traced).
  - intros g1 g2 sig Hs _. by apply chain_finder_agree.
  - constructor; [|constructor].
    intros g1 g2 p Hs _. simpl. by apply addmm_get_anchors_agree.
  - apply addmm_graph_traced_identical.
  - apply addmm_graph_traced_identical.
Defined.

Lemma structurally_identical_set_one n a g :
  structurally_identical g (set_annotation n a g).
Proof.
  split; [by rewrite graph_nodes_set_annotation|].
  intros m. rewrite heap_set_annotation.
  case_decide as Hd; [subst m|done]. by destruct (heap g !! n).
Qed.

(** C4, counterexample: [addmm_graph] and [addmm_graph_claimed] have the
    same nodes, kinds and wiring; the second carries an annotation on its
    add node before the pass.  On the first the addmm partition is accepted
    and the mm node gets its input specs; on the second the partition is
    rejected and the mm node stays without an entry. *)
Lemma prior_annotation_changes_outcome :
  structurally_identical addmm_graph addmm_graph_claimed
  ∧ (∃ g1 g2,
       composable_annotate chain_finder [addmm_quantizer] addmm_graph = Ok g1
       ∧ composable_annotate chain_finder [addmm_quantizer] addmm_graph_claimed
         = Ok g2
       ∧ is_Some (node_annotation g1 4%positive)
       ∧ node_annotation g2 4%positive = None).
Proof.
  split; [apply structurally_identical_set_one|].
  eexists _, _. split; [vm_compute; reflexivity|].
  split; [vm_compute; reflexivity|].
  split; [vm_compute; eauto|by vm_compute].
Qed.

(** The add node of [addmm_graph] under the default configuration. *)
Lemma bias_edge_mapped_to_None_witness :
  ∃ g' a, annotate_partition addmm_quantizer addmm_graph addmm_partition = Ok g'
          ∧ node_annotation g' 5%positive = Some a
          ∧ input_qspec_map a !! ArgNode 3 = Some None.
Proof.
  apply (bias_edge_mapped_to_None addmm_quantizer addmm_graph addmm_partition
           addmm_anchors 5%positive 1 (ArgNode 3)).
  - vm_compute. reflexivity.
  - vm_compute. reflexivity.
  - vm_compute. reflexivity.
  - reflexivity.
  - repeat constructor; vm_compute; eauto.
  - intros x Hx _. apply list_elem_of_singleton in Hx. by subst x.
  - simpl. left.
  - vm_compute. reflexivity.
Defined.

(** C2, counterexample: in [stale_mm_graph] the mm node refers to a record
    whose flag is unset.  The addmm annotator merges its activation and
    weight specs into that record and the flag stays unset; the mm node is
    then an anchor of the partition of a second pattern, which is not
    rejected: it gives the node a new record, and the weight entry of the
    first pattern is gone. *)
Lemma merged_unflagged_entry_overwritten :
  ∃ g1 e1 g2 e2,
    annotate chain_finder addmm_quantizer stale_mm_graph = Ok g1
    ∧ node_annotation g1 4%positive = Some e1
    ∧ input_qspec_map e1 !! ArgNode 2 = Some (Some (QSpec wgt_qspec))
    ∧ _annotated e1 = false
    ∧ get_anchors (pattern mm_quantizer) g1 mm_partition
      = Some {| inputs := [(4%positive, 0, [])]; weights := []; biases := [];
                output := [(4%positive, [])] |}
    ∧ annotate_partition mm_quantizer g1 mm_partition = Ok g2
    ∧ composable_annotate chain_finder [addmm_quantizer; mm_quantizer]
        stale_mm_graph = Ok g2
    ∧ node_annotation g2 4%positive = Some e2
    ∧ input_qspec_map e2 !! ArgNode 2 = None
    ∧ output_qspec e2 = Some (QSpec act_qspec).
Proof.
  eexists _, _, _, _. split; [vm_compute; reflexivity|].
  split; [vm_compute; reflexivity|]. split; [by vm_compute|].
  split; [done|]. split; [reflexivity|].
  split; [vm_compute; reflexivity|]. split; [vm_compute; reflexivity|].
  split; [vm_compute; reflexivity|]. by vm_compute.
Qed.

(** C3, counterexample: in [add_chain_graph] the pattern of two adds in a
    row finds the partitions of nodes 3, 4 and of nodes 4, 5.  In the first,
    node 3 is not the output and feeds node 7 outside it, so the partition
    is passed over; the second is accepted, and node 4, a node of the first
    partition, ends the pass of this one pattern with an annotation entry. *)
Lemma node_of_skipped_partition_annotated :
  chain_finder add_chain_graph ["add"; "add"]
  = [ {| part_nodes := [3; 4]%positive; part_output := 4%positive |};
      {| part_nodes := [4; 5]%positive; part_output := 5%positive |} ]
  ∧ 7%positive ∈ node_users add_chain_graph 3%positive
  ∧ no_outside_users add_chain_graph
      {| part_nodes := [3; 4]%positive; part_output := 4%positive |} = false
  ∧ ∃ g' e, annotate chain_finder (mkQuantizer add_add_pattern _default_qconfig)
              add_chain_graph = Ok g'
            ∧ node_annotation g' 4%positive = Some e
            ∧ input_qspec_map e !! ArgNode 3 = Some (Some (QSpec act_qspec)).
Proof.
  split; [vm_compute; reflexivity|]. split; [vm_compute; right; left|].
  split; [vm_compute; reflexivity|].
  eexists _, _. split; [vm_compute; reflexivity|].
  split; [vm_compute; reflexivity|]. by vm_compute.
Qed.

(** C10, counterexample: the configuration has no bias spec, the bias
    anchor of the accepted partition carries a derived spec, and the bias
    edge is mapped to that spec, not to [None]. *)
Lemma custom_bias_spec_recorded :
  bias _default_qconfig = None
  ∧ ∃ g' e, annotate chain_finder
              (mkQuantizer derived_bias_pattern _default_qconfig) addmm_graph
            = Ok g'
            ∧ node_annotation g' 5%positive = Some e
            ∧ input_qspec_map e !! ArgNode 3 = Some (Some derived_bias_spec).
Proof.
  split; [done|]. eexists _, _. split; [vm_compute; reflexivity|].
  split; [vm_compute; reflexivity|]. by vm_compute.
Qed.

(** C7: on [addmm_graph], with one accepted addmm partition, the add node
    starts without an entry and ends the pass with a single entry that holds
    both the output spec it got as output anchor and an input-map entry for
    the bias edge it got as bias anchor. *)
Theorem output_anchor_also_input_anchor :
  node_annotation addmm_graph 5%positive = None
  ∧ ∃ g' a,
      annotate chain_finder (mkQuantizer addmm_pattern biased_qconfig) addmm_graph
      = Ok g'
      ∧ node_annotation g' 5%positive = Some a
      ∧ output_qspec a = Some (QSpec act_qspec)
      ∧ input_qspec_map a !! ArgNode 3 = Some (Some (QSpec wgt_qspec))
      ∧ _annotated a = true.
Proof.
  split; [by vm_compute|].
  eexists _, _. split; [vm_compute; reflexivity|].
  split; [vm_compute; reflexivity|]. by vm_compute.
Qed.

(** C5: the default configuration uses, for input and output activations,
    an unsigned 8-bit static per-tensor affine spec over [0, 255] with a
    histogram observer; for weights the same dtype, range and scheme with a
    min/max observer; and no bias spec.  The default quantizer built with no
    argument uses this configuration, and a supplied configuration takes
    its place in every annotator. *)
Theorem default_qconfig_sanity :
  input_activation _default_qconfig = Some act_qspec
  ∧ output_activation _default_qconfig = Some act_qspec
  ∧ weight _default_qconfig = Some wgt_qspec
  ∧ bias _default_qconfig = None
  ∧ bias_qspec = None
  ∧ (dtype act_qspec = uint8 ∧ quant_min act_qspec = 0
     ∧ quant_max act_qspec = 255 ∧ qscheme act_qspec = per_tensor_affine
     ∧ is_dynamic act_qspec = false
     ∧ ∃ e, observer_or_fake_quant_ctr act_qspec = HistogramObserver_with_args e)
  ∧ (dtype wgt_qspec = uint8 ∧ quant_min wgt_qspec = 0
     ∧ quant_max wgt_qspec = 255 ∧ qscheme wgt_qspec = per_tensor_affine
     ∧ observer_or_fake_quant_ctr wgt_qspec = MinMaxObserver)
  ∧ quantizers (CadenceDefaultQuantizer None)
    = get_cadence_default_quantizer_list_with_config _default_qconfig
  ∧ (∀ c, quantizers (CadenceDefaultQuantizer (Some c))
          = get_cadence_default_quantizer_list_with_config c)
  ∧ (∀ c, Forall (fun q => quantization_config q = c)
            (quantizers (CadenceDefaultQuantizer (Some c)))).
Proof.
  repeat split; try reflexivity.
  - by eexists.
  - intros c. simpl. repeat constructor.
Qed.

(** C8: the validation hook returns normally and leaves the model as it
    is, for every model, and the operator-support declaration is the empty
    list. *)
Theorem validate_is_noop {P} (q : CadenceAtenQuantizer P) (model : GraphModule) :
  validate q model = Ok model ∧ get_supported_operators = [].
Proof. by split. Qed.

Section DefaultList.
Context `{QuantizationPattern CadencePattern}.
Variable find : GraphModule -> list string -> list Partition.

(** C9: the default list holds nine annotators, for Addmm, Bmm, Conv1d,
    Conv2d, LayerNorm, Linear, Matmul, ReluPattern0 and ReluPattern1 in
    this order, each with the one configuration passed in; the aggregate
    pass runs the Addmm annotator first and the others after it in list
    order, so Addmm comes before Linear and Matmul. *)
Theorem default_quantizer_list_order (c : QuantizationConfig) (g : GraphModule) :
  pattern <$> get_cadence_default_quantizer_list_with_config c
  = [AddmmPattern; BmmPattern; Conv1dPattern; Conv2dPattern; LayerNormPattern;
     LinearPattern; MatmulPattern; ReluPattern0; ReluPattern1]
  ∧ length (get_cadence_default_quantizer_list_with_config c) = 9%nat
  ∧ Forall (fun q => quantization_config q = c)
      (get_cadence_default_quantizer_list_with_config c)
  ∧ composable_annotate find (get_cadence_default_quantizer_list_with_config c) g
    = annotate find (mkQuantizer AddmmPattern c) g
      >>> composable_annotate find
            ((fun p => mkQuantizer p c)
               <$> [BmmPattern; Conv1dPattern; Conv2dPattern; LayerNormPattern;
                    LinearPattern; MatmulPattern; ReluPattern0; ReluPattern1]).
Proof.
  split; [reflexivity|]. split; [reflexivity|]. split; [|reflexivity].
  repeat constructor.
Qed.
End DefaultList.

(** ** Normal return *)

Lemma assign_specs_returns c a g :
  Forall (valid_anchor g) (inputs a ++ weights a ++ biases a) →
  ∃ g', assign_specs c a g = Ok g'.
Proof.
  intros Hv. destruct (assign_specs_stages c a g Hv)
    as (g1 & g2 & g3 & _ & _ & _ & E & _).
  by exists g3.
Qed.

Lemma only_annotations_differ_structural g1 g2 :
  only_annotations_differ g1 g2 → structurally_identical g1 g2.
Proof.
  intros [Hn Hf]. split; [done|]. intros n. specialize (Hf n).
  destruct (heap g1 !! n), (heap g2 !! n); simpl in *; try done.
  injection Hf as Ht Ha Hu _. unfold wiring. by rewrite Ht, Ha, Hu.
Qed.

Section AnnotateReturns.
Context {P : Type} `{QuantizationPattern P}.
Variable find : GraphModule -> list string -> list Partition.

Lemma annotate_partition_returns (q : CadenceAtenQuantizer P) g p :
  (∀ anchors, get_anchors (pattern q) g p = Some anchors →
     Forall (valid_anchor g)
       (inputs anchors ++ weights anchors ++ biases anchors)) →
  ∃ g', annotate_partition q g p = Ok g'.
Proof.
  intros Hv. unfold annotate_partition.
  destruct (negb _); [by eexists|].
  destruct (get_anchors _ _ _) as [anchors|]; [|by eexists].
  destruct (is_annotated _ _); [by eexists|].
  by apply assign_specs_returns, Hv.
Qed.

Lemma annotate_loop_returns (q : CadenceAtenQuantizer P) ps g :
  (∀ g' p anchors, only_annotations_differ g g' → p ∈ ps →
     get_anchors (pattern q) g' p = Some anchors →
     Forall (valid_anchor g')
       (inputs anchors ++ weights anchors ++ biases anchors)) →
  ∃ g', annotate_loop q ps g = Ok g'.
Proof.
  revert g. induction ps as [|p ps IH]; intros g Hv; [by eexists|].
  simpl. destruct (annotate_partition_returns q g p) as [g1 E1].
  { intros anchors. apply Hv; [apply only_annotations_differ_refl|left]. }
  pose proof (annotate_partition_frame q g p) as F1.
  rewrite E1 in *. simpl in *. apply IH.
  intros g' p' anchors Hg' Hp'. apply Hv; [|by right].
  by eapply only_annotations_differ_trans.
Qed.

Lemma annotate_returns (q : CadenceAtenQuantizer P) g :
  anchors_in_range find (pattern q) g → ∃ g', annotate find q g = Ok g'.
Proof.
  intros Hr. apply annotate_loop_returns.
  intros g' p anchors Hg' Hp. by apply (Hr g g'), Hp.
Qed.

Lemma composable_annotate_returns (qs : list (CadenceAtenQuantizer P)) g :
  Forall (fun q => anchors_in_range find (pattern q) g) qs →
  ∃ g', composable_annotate find qs g = Ok g'.
Proof.
  revert g. induction qs as [|q qs IH]; intros g Hr; [by eexists|].
  apply Forall_cons in Hr as [Hq Hr]. simpl.
  destruct (annotate_returns q g Hq) as [g1 E1].
  pose proof (annotate_frame find q g) as F1.
  rewrite E1 in *. simpl in *. apply IH.
  eapply Forall_impl; [exact Hr|]. intros q' Hq' g0 g' p anchors H0 H'.
  apply Hq'; by eapply only_annotations_differ_trans.
Qed.

(** C6: the annotation pass, for one annotator and for the aggregate
    list, hands back the graph it was given: the same nodes in the same
    order, every node with its operator kind, arguments, consumers and
    all metadata other than the annotation entry as before (also in the
    store an exception would leave behind); and when the patterns name
    argument positions that exist, the pass returns normally with that
    graph. *)
Theorem annotate_only_writes_annotations
    (q : CadenceAtenQuantizer P) (qs : list (CadenceAtenQuantizer P)) g :
  only_annotations_differ g (store (annotate find q g))
  ∧ only_annotations_differ g (store (composable_annotate find qs g))
  ∧ dom (heap (store (composable_annotate find qs g))) = dom (heap g)
  ∧ (Forall (fun q => anchors_in_range find (pattern q) g) qs →
     ∃ g', composable_annotate find qs g = Ok g'
           ∧ only_annotations_differ g g').
Proof.
  split; [apply annotate_frame|]. split; [apply composable_annotate_frame|].
  pose proof (composable_annotate_frame find qs g) as F. split.
  - destruct F as [_ Hf]. apply set_eq. intros n. rewrite !elem_of_dom.
    specialize (Hf n). rewrite <- !(fmap_is_Some frame). by rewrite Hf.
  - intros Hr. destruct (composable_annotate_returns qs g Hr) as [g' E].
    exists g'. split; [done|]. by rewrite E in F.
Qed.

(** Entries set up by the pass have the annotated flag: a graph whose
    entries all have it keeps that property. *)
Lemma set_annotation_all_annotated n a g :
  all_annotated g → _annotated a = true →
  all_annotated (set_annotation n a g).
Proof.
  intros Hg Ha m b Hm. destruct (decide (n = m)) as [<-|Hne].
  - destruct (heap g !! n) as [nd|] eqn:E.
    + rewrite node_annotation_set_eq in Hm by eauto. by injection Hm as <-.
    + unfold set_annotation in Hm. rewrite E in Hm. by eapply Hg.
  - rewrite node_annotation_set_ne in Hm by done. by eapply Hg.
Qed.

Lemma annotate_input_all_annotated n k v g :
  all_annotated g → all_annotated (annotate_input n k v g).
Proof.
  intros Hg. unfold annotate_input.
  destruct (node_object g n) as [[o a]|]; [|by apply set_annotation_all_annotated].
  intros m b Hm. rewrite node_annotation_update in Hm.
  case_decide; [|by eapply Hg].
  destruct (node_annotation g m) as [b0|] eqn:E; simpl in Hm; [|done].
  injection Hm as <-. simpl. by eapply Hg.
Qed.

Lemma annotate_outputs_all_annotated outs spec g :
  all_annotated g → all_annotated (annotate_outputs outs spec g).
Proof.
  revert g. unfold annotate_outputs.
  induction outs as [|[out cs] outs IH]; intros g Hg; [done|].
  simpl. apply IH. by apply set_annotation_all_annotated.
Qed.

Lemma annotate_inputs_all_annotated ins spec g :
  all_annotated g → all_annotated (store (annotate_inputs ins spec g)).
Proof.
  revert g. induction ins as [|[[m idx] cs] ins IH]; intros g Hg; [done|].
  simpl. destruct (py_index (node_args g m) idx) as [key|]; [|done].
  by apply IH, annotate_input_all_annotated.
Qed.

Lemma assign_specs_all_annotated c a g :
  all_annotated g → all_annotated (store (assign_specs c a g)).
Proof.
  intros Hg. unfold assign_specs.
  pose proof (annotate_inputs_all_annotated (inputs a) (input_activation c)
                _ (annotate_outputs_all_annotated (output a)
                     (output_activation c) g Hg)) as H1.
  destruct (annotate_inputs (inputs a) _ _) as [g1|e g1]; simpl in *; [|done].
  pose proof (annotate_inputs_all_annotated (weights a) (weight c) g1 H1) as H2.
  destruct (annotate_inputs (weights a) _ _) as [g2|e g2]; simpl in *; [|done].
  by apply annotate_inputs_all_annotated.
Qed.

Lemma annotate_loop_all_annotated (q : CadenceAtenQuantizer P) ps g :
  all_annotated g → all_annotated (store (annotate_loop q ps g)).
Proof.
  revert g. induction ps as [|p ps IH]; intros g Hg; [done|]. simpl.
  assert (H1 : all_annotated (store (annotate_partition q g p))).
  { unfold annotate_partition. destruct (negb _); [done|].
    destruct (get_anchors _ _ _); [|done].
    destruct (is_annotated _ _); [done|]. by apply assign_specs_all_annotated. }
  destruct (annotate_partition q g p) as [g1|e g1]; simpl in *; [|done].
  by apply IH.
Qed.

Lemma composable_annotate_all_annotated
    (qs : list (CadenceAtenQuantizer P)) g :
  all_annotated g → all_annotated (store (composable_annotate find qs g)).
Proof.
  revert g. induction qs as [|q qs IH]; intros g Hg; [done|]. simpl.
  pose proof (annotate_loop_all_annotated q
                (find g (partition_types (pattern q))) g Hg) as H1.
  fold (annotate find q g) in H1.
  destruct (annotate find q g) as [g1|e g1]; simpl in *; [|done].
  by apply IH.
Qed.
End AnnotateReturns.

Lemma addmm_anchors_in_range :
  anchors_in_range chain_finder addmm_pattern addmm_graph.
Proof.
  intros g0 g' p anchors H0 H' Hp Ha.
  change (p ∈ chain_finder g0 ["mm"; "add"]) in Hp.
  change (addmm_get_anchors g' p = Some anchors) in Ha.
  rewrite <- (chain_finder_agree addmm_graph g0) in Hp
    by (by apply only_annotations_differ_structural).
  rewrite addmm_graph_partitions in Hp. apply list_elem_of_singleton in Hp.
  subst p. unfold addmm_get_anchors in Ha. simpl in Ha.
  rewrite <- (only_annotations_differ_args addmm_graph g') in Ha by done.
  vm_compute in Ha. injection Ha as <-. simpl.
  repeat constructor; unfold valid_anchor; simpl;
    rewrite <- (only_annotations_differ_args addmm_graph g') by done;
    vm_compute; eauto.
Qed.

(** The addmm annotator on [addmm_graph] returns normally. *)
Lemma annotate_only_writes_annotations_witness :
  ∃ g', composable_annotate chain_finder [addmm_quantizer] addmm_graph = Ok g'
        ∧ only_annotations_differ addmm_graph g'.
Proof.
  apply (annotate_only_writes_annotations chain_finder addmm_quantizer
           [addmm_quantizer] addmm_graph).
  constructor; [|constructor]. apply addmm_anchors_in_range.
Defined.

(** ** Entries are never removed, and only anchor nodes are written *)

Lemma set_annotation_keeps_entry n a g m :
  is_Some (node_annotation g m) →
  is_Some (node_annotation (set_annotation n a g) m).
Proof.
  intros [b Hb]. destruct (decide (n = m)) as [<-|Hne].
  - rewrite node_annotation_set_eq; [eauto|].
    by eapply node_annotation_is_Some_heap.
  - rewrite node_annotation_set_ne by done. eauto.
Qed.

Lemma annotate_input_keeps_entry n k v g m :
  is_Some (node_annotation g m) →
  is_Some (node_annotation (annotate_input n k v g) m).
Proof.
  intros Hm. unfold annotate_input.
  destruct (node_object g n) as [[o a]|]; [|by apply set_annotation_keeps_entry].
  rewrite node_annotation_update. case_decide; [|done].
  by apply fmap_is_Some.
Qed.

Lemma annotate_outputs_keeps_entry outs spec g m :
  is_Some (node_annotation g m) →
  is_Some (node_annotation (annotate_outputs outs spec g) m).
Proof.
  revert g. unfold annotate_outputs.
  induction outs as [|[out cs] outs IH]; intros g Hm; [done|].
  simpl. apply IH. by apply set_annotation_keeps_entry.
Qed.

Lemma annotate_inputs_keeps_entry ins spec g m :
  is_Some (node_annotation g m) →
  is_Some (node_annotation (store (annotate_inputs ins spec g)) m).
Proof.
  revert g. induction ins as [|[[n idx] cs] ins IH]; intros g Hm; [done|].
  simpl. destruct (py_index (node_args g n) idx) as [key|]; [|done].
  apply IH. by apply annotate_input_keeps_entry.
Qed.

Lemma assign_specs_keeps_entry c a g m :
  is_Some (node_annotation g m) →
  is_Some (node_annotation (store (assign_specs c a g)) m).
Proof.
  intros Hm. unfold assign_specs.
  pose proof (annotate_inputs_keeps_entry (inputs a) (input_activation c) _ m
                (annotate_outputs_keeps_entry (output a) (output_activation c)
                   g m Hm)) as H1.
  destruct (annotate_inputs (inputs a) _ _) as [g1|e g1]; simpl in *; [|done].
  pose proof (annotate_inputs_keeps_entry (weights a) (weight c) g1 m H1) as H2.
  destruct (annotate_inputs (weights a) _ _) as [g2|e g2]; simpl in *; [|done].
  by apply annotate_inputs_keeps_entry.
Qed.

Section AnnotateWrites.
Context {P : Type} `{QuantizationPattern P}.
Variable find : GraphModule -> list string -> list Partition.

Lemma annotate_partition_keeps_entry (q : CadenceAtenQuantizer P) g p m :
  is_Some (node_annotation g m) →
  is_Some (node_annotation (store (annotate_partition q g p)) m).
Proof.
  intros Hm. unfold annotate_partition. destruct (negb _); [done|].
  destruct (get_anchors _ _ _); [|done].
  destruct (is_annotated _ _); [done|]. by apply assign_specs_keeps_entry.
Qed.

Lemma annotate_loop_keeps_entry (q : CadenceAtenQuantizer P) ps g m :
  is_Some (node_annotation g m) →
  is_Some (node_annotation (store (annotate_loop q ps g)) m).
Proof.
  revert g. induction ps as [|p ps IH]; intros g Hm; [done|]. simpl.
  pose proof (annotate_partition_keeps_entry q g p m Hm) as H1.
  destruct (annotate_partition q g p) as [g1|e g1]; simpl in *; [|done].
  by apply IH.
Qed.

(** X10: the pass never deletes an annotation entry: a node that holds
    one when [annotate] starts holds one in the store the pass ends with,
    whether it returns or raises. *)
Theorem annotate_never_removes_entry (q : CadenceAtenQuantizer P) g m :
  is_Some (node_annotation g m) →
  is_Some (node_annotation (store (annotate find q g)) m).
Proof. apply annotate_loop_keeps_entry. Qed.

Lemma annotate_partition_sharing (q : CadenceAtenQuantizer P) g p :
  no_new_sharing g (store (annotate_partition q g p)).
Proof.
  unfold annotate_partition. destruct (negb _); [apply no_new_sharing_refl|].
  destruct (get_anchors _ _ _); [|apply no_new_sharing_refl].
  destruct (is_annotated _ _); [apply no_new_sharing_refl|].
  apply assign_specs_sharing.
Qed.

Lemma annotate_loop_sharing (q : CadenceAtenQuantizer P) ps g :
  no_new_sharing g (store (annotate_loop q ps g)).
Proof.
  revert g. induction ps as [|p ps IH]; intros g; [apply no_new_sharing_refl|].
  simpl. apply bind_sharing; [apply annotate_partition_sharing|apply IH].
Qed.

Lemma annotate_partition_other (q : CadenceAtenQuantizer P) gb g p n :
  no_new_sharing gb g →
  (∀ anchors, get_anchors (pattern q) g p = Some anchors →
              ∀ m, m ∈ anchor_nodes anchors → m ≠ n ∧ ¬ shares gb n m) →
  node_annotation (store (annotate_partition q g p)) n = node_annotation g n.
Proof.
  intros Hs Hn. unfold annotate_partition. destruct (negb _); [done|].
  destruct (get_anchors _ _ _) as [anchors|]; [|done].
  destruct (is_annotated _ _); [done|].
  by apply (assign_specs_other _ _ gb), Hn.
Qed.

Lemma annotate_loop_other (q : CadenceAtenQuantizer P) ps gb g n :
  only_annotations_differ gb g → no_new_sharing gb g →
  (∀ g' p anchors, only_annotations_differ gb g' → p ∈ ps →
     get_anchors (pattern q) g' p = Some anchors →
     ∀ m, m ∈ anchor_nodes anchors → m ≠ n ∧ ¬ shares gb n m) →
  node_annotation (store (annotate_loop q ps g)) n = node_annotation g n.
Proof.
  revert g. induction ps as [|p ps IH]; intros g Hf Hs Hn; [done|]. simpl.
  pose proof (annotate_partition_other q gb g p n Hs) as H1.
  pose proof (annotate_partition_frame q g p) as F1.
  pose proof (annotate_partition_sharing q g p) as S1.
  destruct (annotate_partition q g p) as [g1|e g1]; simpl in *.
  - rewrite IH.
    + apply H1. intros anchors. apply Hn; [done|left].
    + by eapply only_annotations_differ_trans.
    + by eapply no_new_sharing_trans.
    + intros g' p' anchors Hg' Hp'. apply Hn; [done|by right].
  - apply H1. intros anchors. apply Hn; [done|left].
Qed.

(** X8: [annotate] writes the metadata of anchor nodes, and through them
    the records they refer to, and nothing else.  A node that the pattern
    never returns as the node of an anchor, for the partitions found in the
    graph, and that shares its annotation record with no such node, ends the
    pass with the annotation entry (or the absence of one) it started with;
    a producer that only appears as [node.args[idx]] of an anchor is such a
    node. *)
Theorem annotate_leaves_non_anchor_nodes (q : CadenceAtenQuantizer P) g n :
  (∀ g' p anchors, only_annotations_differ g g' →
     p ∈ find g (partition_types (pattern q)) →
     get_anchors (pattern q) g' p = Some anchors →
     ∀ m, m ∈ anchor_nodes anchors → m ≠ n ∧ ¬ shares g n m) →
  node_annotation (store (annotate find q g)) n = node_annotation g n.
Proof.
  apply annotate_loop_other;
    [apply only_annotations_differ_refl|apply no_new_sharing_refl].
Qed.

(** X9: the annotated flag is an invariant of the pass: every record
    [annotate] creates has it, and merging keeps the flag of the record
    merged into, so a graph whose entries all have the flag (a graph with
    no entry among them) ends the pass with every entry flagged. *)
Theorem annotate_keeps_all_annotated (q : CadenceAtenQuantizer P) g :
  all_annotated g → all_annotated (store (annotate find q g)).
Proof. apply annotate_loop_all_annotated. Qed.

Lemma annotate_partition_ineligible (q : CadenceAtenQuantizer P) g p :
  ineligible (pattern q) g p → annotate_partition q g p = Ok g.
Proof.
  unfold annotate_partition. intros [Hno|[Hnone|(a & Ha & Hann)]].
  - by rewrite Hno.
  - destruct (negb _); [done|]. by rewrite Hnone.
  - destruct (negb _); [done|]. by rewrite Ha, Hann.
Qed.

(** X1: ineligible partitions are passed over without error.  When every
    partition found in the graph has an outside user, or gets no anchors
    from the pattern, or has an annotated anchor, [annotate] returns
    normally and the graph is exactly as it was; a graph in which nothing
    matches is the case of an empty list. *)
Theorem annotate_skips_ineligible (q : CadenceAtenQuantizer P) g :
  (∀ p, p ∈ find g (partition_types (pattern q)) → ineligible (pattern q) g p) →
  annotate find q g = Ok g.
Proof.
  unfold annotate. generalize (find g (partition_types (pattern q))).
  intros ps Hps. induction ps as [|p ps IH]; [done|]. simpl.
  rewrite annotate_partition_ineligible by (apply Hps; left).
  simpl. apply IH. intros p' Hp'. apply Hps. by right.
Qed.
End AnnotateWrites.

(** ** What an accepted partition records *)

Lemma annotate_inputs_app l1 l2 spec g :
  annotate_inputs (l1 ++ l2) spec g
  = annotate_inputs l1 spec g >>> annotate_inputs l2 spec.
Proof.
  revert g. induction l1 as [|[[n idx] cs] l1 IH]; intros g; [done|].
  simpl. destruct (py_index (node_args g n) idx) as [key|]; [|done].
  apply IH.
Qed.

Lemma addresses_frame g g' n k x :
  only_annotations_differ g g' → addresses g n k x → addresses g' n k x.
Proof.
  intros Hf [Hn Hk]. split; [done|].
  by rewrite <- (only_annotations_differ_args g g').
Qed.

Lemma annotate_outputs_lookup outs spec g n cs :
  NoDup (fst <$> outs) → (n, cs) ∈ outs → is_Some (heap g !! n) →
  node_annotation (annotate_outputs outs spec g) n
  = Some (QuantizationAnnotation_new (custom_or cs spec) true).
Proof.
  revert g. unfold annotate_outputs.
  induction outs as [|[m cs'] outs IH]; intros g Hnd Hin Hn.
  { by apply elem_of_nil in Hin. }
  rewrite fmap_cons in Hnd. apply NoDup_cons in Hnd as [Hm Hnd]. simpl in *.
  apply elem_of_cons in Hin as [Heq|Hin].
  - injection Heq as <- <-.
    pose proof (annotate_outputs_other outs spec
                  (set_annotation n
                     (QuantizationAnnotation_new (custom_or cs spec) true) g)
                  n Hm) as Ho.
    unfold annotate_outputs in Ho. rewrite Ho.
    by apply node_annotation_set_eq.
  - apply IH; [done|done|]. by apply heap_set_is_Some.
Qed.

Lemma annotate_outputs_keeps_flagged outs spec g n :
  (∃ e, node_annotation g n = Some e ∧ _annotated e = true) →
  ∃ e, node_annotation (annotate_outputs outs spec g) n = Some e
       ∧ _annotated e = true.
Proof.
  revert g. unfold annotate_outputs.
  induction outs as [|[m cs] outs IH]; intros g He; [done|].
  simpl. apply IH. destruct He as (e & He & Hf).
  destruct (decide (m = n)) as [->|Hne].
  - eexists. split; [apply node_annotation_set_eq|reflexivity].
    by eapply node_annotation_is_Some_heap.
  - exists e. by rewrite node_annotation_set_ne.
Qed.

Lemma annotate_outputs_flags outs spec g n cs :
  (n, cs) ∈ outs → is_Some (heap g !! n) →
  ∃ e, node_annotation (annotate_outputs outs spec g) n = Some e
       ∧ _annotated e = true.
Proof.
  revert g. induction outs as [|[m cs'] outs IH]; intros g Hin Hn.
  { by apply elem_of_nil in Hin. }
  apply elem_of_cons in Hin as [Heq|Hin].
  - injection Heq as <- <-.
    apply (annotate_outputs_keeps_flagged outs spec
             (annotate_output spec g (n, cs)) n).
    eexists. split; [by apply node_annotation_set_eq|reflexivity].
  - apply (IH (annotate_output spec g (m, cs'))); [done|].
    by apply heap_set_is_Some.
Qed.

(** An output anchor refers to a record of its own once the output
    writes are done. *)
Lemma annotate_outputs_unshared outs spec g n cs :
  (n, cs) ∈ outs → is_Some (heap g !! n) →
  unshared_node (annotate_outputs outs spec g) n.
Proof.
  revert g. induction outs as [|[m cs'] outs IH]; intros g Hin Hn.
  { by apply elem_of_nil in Hin. }
  destruct (decide (m = n)) as [->|Hne].
  - intros y Hy Hsh.
    apply (annotate_outputs_sharing outs spec (annotate_output spec g (n, cs')))
      in Hsh; [|done].
    destruct Hsh as (o & Hno & Hyo). simpl in *.
    rewrite node_ref_set_eq in Hno by done. injection Hno as <-.
    rewrite node_ref_set_ne in Hyo by done.
    by apply (new_object_id_ref g y).
  - apply elem_of_cons in Hin as [Heq|Hin]; [congruence|].
    apply (IH (annotate_output spec g (m, cs'))); [done|].
    by apply heap_set_is_Some.
Qed.

Lemma unshared_node_later g g' n :
  no_new_sharing g g' → unshared_node g n → unshared_node g' n.
Proof. intros Hs Hu m Hm Hsh. apply (Hu m Hm), Hs; [done|done]. Qed.

(** For a node with a record of its own, the writes that reach the record
    are those of the anchors on the node. *)
Lemma writes_to_unshared gb g n k x :
  only_annotations_differ gb g → unshared_node g n →
  writes_to g n k x → addresses gb n k x.
Proof.
  intros Hf Hu [Hn Hk].
  destruct (decide (x.1.1 = n)) as [Hx|Hx].
  - split; [done|]. rewrite (only_annotations_differ_args gb g) by done.
    by rewrite <- Hx.
  - destruct Hn as [|Hn]; [done|]. by destruct (Hu x.1.1 Hx).
Qed.

Lemma stage_step ins spec gi gj :
  annotate_inputs ins spec gi = Ok gj →
  only_annotations_differ gi gj ∧ no_new_sharing gi gj.
Proof.
  intros E. pose proof (annotate_inputs_frame ins spec gi) as F.
  pose proof (annotate_inputs_sharing ins spec gi) as S.
  by rewrite E in F, S.
Qed.

Lemma stage_merge ins spec gb gi gj n e :
  only_annotations_differ gb gi ∧ no_new_sharing gb gi →
  annotate_inputs ins spec gi = Ok gj →
  node_annotation gi n = Some e →
  ∃ e', node_annotation gj n = Some e'
        ∧ output_qspec e' = output_qspec e
        ∧ _annotated e' = _annotated e
        ∧ (∀ k, is_Some (input_qspec_map e !! k) →
                is_Some (input_qspec_map e' !! k))
        ∧ ∀ k, (∀ x : InputAnchor, x ∈ ins → ¬ writes_to gb n k x) →
               input_qspec_map e' !! k = input_qspec_map e !! k.
Proof.
  intros [Hf Hs] E He.
  destruct (annotate_inputs_merge ins spec gb gi n e Hf Hs He)
    as (e' & He' & Ho & Hfl & Hk & Hu & _).
  rewrite E in He'. simpl in He'. by exists e'.
Qed.



Section Recorded.
Context {P : Type} `{QuantizationPattern P}.

(** X3: the entry an accepted partition leaves on its output anchor.  With
    anchor indices in range and the node listed once in the output bucket,
    the partition returns normally and the node's entry has the anchor's
    custom output spec if it carries one and the configured
    output-activation spec otherwise, has the annotated flag, and has no
    input-map key other than those its own input, weight and bias anchors
    address. *)
Theorem accepted_output_anchor_entry
    (q : CadenceAtenQuantizer P) g p a n cs :
  no_outside_users g p = true →
  get_anchors (pattern q) g p = Some a →
  is_annotated g (anchor_nodes a) = false →
  Forall (valid_anchor g) (inputs a ++ weights a ++ biases a) →
  NoDup (fst <$> output a) → (n, cs) ∈ output a → is_Some (heap g !! n) →
  ∃ g' e, annotate_partition q g p = Ok g'
          ∧ node_annotation g' n = Some e
          ∧ output_qspec e
            = custom_or cs (output_activation (quantization_config q))
          ∧ _annotated e = true
          ∧ ∀ k, (∀ x : InputAnchor,
                    x ∈ inputs a ++ weights a ++ biases a →
                    ¬ addresses g n k x) →
                 input_qspec_map e !! k = None.
Proof.
  intros Hno Ha Hann Hv Hnd Hin Hn.
  rewrite (annotate_partition_accepted q g p a) by done.
  destruct (assign_specs_stages (quantization_config q) a g Hv)
    as (g1 & g2 & g3 & E1 & E2 & E3 & E & [F0 S0] & _ & _).
  pose proof (annotate_outputs_lookup (output a)
                (output_activation (quantization_config q)) g n cs Hnd Hin Hn)
    as H0.
  pose proof (annotate_outputs_unshared (output a)
                (output_activation (quantization_config q)) g n cs Hin Hn)
    as U0.
  set (g0 := annotate_outputs (output a)
               (output_activation (quantization_config q)) g) in *.
  assert (R0 : only_annotations_differ g0 g0 ∧ no_new_sharing g0 g0)
    by (split; [apply only_annotations_differ_refl|apply no_new_sharing_refl]).
  destruct (stage_step _ _ _ _ E1) as [F1 S1].
  destruct (stage_step _ _ _ _ E2) as [F2 S2].
  assert (R1 : only_annotations_differ g0 g1 ∧ no_new_sharing g0 g1) by done.
  assert (R2 : only_annotations_differ g0 g2 ∧ no_new_sharing g0 g2).
  { split; [by eapply only_annotations_differ_trans
           |by eapply no_new_sharing_trans]. }
  destruct (stage_merge _ _ g0 _ _ n _ R0 E1 H0)
    as (e1 & H1 & O1 & A1 & _ & U1).
  destruct (stage_merge _ _ g0 _ _ n _ R1 E2 H1)
    as (e2 & H2 & O2 & A2 & _ & U2).
  destruct (stage_merge _ _ g0 _ _ n _ R2 E3 H2)
    as (e3 & H3 & O3 & A3 & _ & U3).
  exists g3, e3. split; [done|]. split; [done|].
  split; [by rewrite O3, O2, O1|]. split; [by rewrite A3, A2, A1|].
  intros k Hna. rewrite U3, U2, U1; [done|..]; intros x Hx Hw;
    apply (Hna x); [rewrite !elem_of_app; auto| |rewrite !elem_of_app; auto|
                    |rewrite !elem_of_app; auto|];
    by apply (writes_to_unshared g g0 n k x).
Qed.




(** X7: an anchor index out of range raises [IndexError] in the middle of
    the writes and nothing is rolled back.  When the first out-of-range
    anchor is in the inputs bucket, the partition's iteration, and with it
    the whole loop, ends in [IndexError]; the store is the one reached
    after the output writes and the inputs anchors before the failing one,
    so every output anchor of the partition already carries its new
    flagged entry. *)
Theorem index_error_leaves_partial_writes
    (q : CadenceAtenQuantizer P) g p a l1 x l2 rest :
  no_outside_users g p = true →
  get_anchors (pattern q) g p = Some a →
  is_annotated g (anchor_nodes a) = false →
  inputs a = l1 ++ x :: l2 →
  Forall (valid_anchor g) l1 →
  py_index (node_args g x.1.1) x.1.2 = None →
  ∃ g1, annotate_partition q g p = Raise IndexError g1
        ∧ annotate_loop q (p :: rest) g = Raise IndexError g1
        ∧ annotate_inputs l1 (input_activation (quantization_config q))
            (annotate_outputs (output a)
               (output_activation (quantization_config q)) g) = Ok g1
        ∧ ∀ out cs, (out, cs) ∈ output a → is_Some (heap g !! out) →
                    ∃ e, node_annotation g1 out = Some e ∧ _annotated e = true.
Proof.
  intros Hno Ha Hann Hsplit Hv Hx.
  pose proof (annotate_outputs_frame (output a)
                (output_activation (quantization_config q)) g) as F0.
  set (g0 := annotate_outputs (output a)
               (output_activation (quantization_config q)) g) in *.
  destruct (annotate_inputs_returns l1
              (input_activation (quantization_config q)) g0) as [g1 E1].
  { eapply Forall_impl; [exact Hv|]. intros y. by apply valid_anchor_frame. }
  pose proof (annotate_inputs_frame l1
                (input_activation (quantization_config q)) g0) as F1.
  rewrite E1 in F1. simpl in F1.
  assert (Hp : annotate_partition q g p = Raise IndexError g1).
  { rewrite (annotate_partition_accepted q g p a) by done.
    unfold assign_specs. fold g0. rewrite Hsplit, annotate_inputs_app, E1.
    destruct x as [[m idx] csx]. simpl in *.
    rewrite <- (only_annotations_differ_args g g1)
      by (by eapply only_annotations_differ_trans).
    by rewrite Hx. }
  exists g1. split; [done|]. split; [by simpl; rewrite Hp|]. split; [done|].
  intros out cs Hout Hheap.
  destruct (annotate_outputs_flags (output a)
              (output_activation (quantization_config q)) g out cs Hout Hheap)
    as (e0 & He0 & Hf0).
  fold g0 in He0.
  destruct (annotate_inputs_merge l1 (input_activation (quantization_config q))
              g0 g0 out e0) as (e1 & He1 & _ & Hf1 & _);
    [apply only_annotations_differ_refl|apply no_new_sharing_refl|done|].
  rewrite E1 in He1. exists e1. split; [done|]. by rewrite Hf1.
Qed.
End Recorded.

(** ** Running the pass again *)

Lemma set_annotation_dangling n a g :
  heap g !! n = None → set_annotation n a g = g.
Proof. intros Hn. unfold set_annotation. by rewrite Hn. Qed.

Lemma annotate_outputs_dangling outs spec g :
  (∀ n, n ∈ fst <$> outs → heap g !! n = None) →
  annotate_outputs outs spec g = g.
Proof.
  unfold annotate_outputs. induction outs as [|[m cs] outs IH]; intros Hd; [done|].
  simpl. rewrite set_annotation_dangling by (apply Hd; left).
  apply IH. intros n Hn. apply Hd. by right.
Qed.

Lemma annotate_inputs_has_entry ins spec g g' n :
  annotate_inputs ins spec g = Ok g' →
  n ∈ (fun x : InputAnchor => x.1.1) <$> ins →
  is_Some (heap g !! n) ∧ is_Some (node_annotation g' n).
Proof.
  revert g. induction ins as [|[[m idx] cs] ins IH]; intros g E Hin.
  { by apply elem_of_nil in Hin. }
  simpl in E. destruct (py_index (node_args g m) idx) as [key|] eqn:Hkey;
    [|done].
  rewrite fmap_cons in Hin. apply elem_of_cons in Hin as [->|Hin]; simpl.
  - pose proof (py_index_Some_heap g m idx key Hkey) as Hm. split; [done|].
    pose proof (annotate_inputs_keeps_entry ins spec _ m
                  (mk_is_Some _ _ (annotate_input_self m key
                     (custom_or cs spec) g Hm))) as Hk.
    by rewrite E in Hk.
  - destruct (IH _ E Hin) as [Hh He]. split; [|done].
    by apply heap_annotate_input_is_Some in Hh.
Qed.

Lemma assign_specs_Ok_inv c a g g' :
  assign_specs c a g = Ok g' →
  ∃ g1 g2,
    annotate_inputs (inputs a) (input_activation c)
      (annotate_outputs (output a) (output_activation c) g) = Ok g1
    ∧ annotate_inputs (weights a) (weight c) g1 = Ok g2
    ∧ annotate_inputs (biases a) (bias c) g2 = Ok g'.
Proof.
  unfold assign_specs. intros E.
  destruct (annotate_inputs (inputs a) _ _) as [g1|e g1] eqn:E1;
    simpl in E; [|done].
  destruct (annotate_inputs (weights a) _ g1) as [g2|e g2] eqn:E2;
    simpl in E; [|done].
  by exists g1, g2.
Qed.

Lemma assign_specs_anchor_has_entry c a g g' n :
  assign_specs c a g = Ok g' → n ∈ anchor_nodes a → is_Some (heap g !! n) →
  is_Some (node_annotation g' n).
Proof.
  intros E Hin Hn.
  destruct (assign_specs_Ok_inv c a g g' E) as (g1 & g2 & E1 & E2 & E3).
  pose proof (annotate_inputs_keeps_entry (weights a) (weight c) g1 n) as K2.
  pose proof (annotate_inputs_keeps_entry (biases a) (bias c) g2 n) as K3.
  rewrite E2 in K2. rewrite E3 in K3. simpl in *.
  unfold anchor_nodes in Hin. rewrite !fmap_app, !elem_of_app in Hin.
  destruct Hin as [[Hi|[Hw|Hb]]|Ho].
  - apply K3, K2. by eapply annotate_inputs_has_entry.
  - apply K3. by eapply annotate_inputs_has_entry.
  - by eapply annotate_inputs_has_entry.
  - apply K3, K2.
    pose proof (annotate_inputs_keeps_entry (inputs a) (input_activation c)
                  (annotate_outputs (output a) (output_activation c) g) n) as K1.
    rewrite E1 in K1. apply K1.
    apply list_elem_of_fmap in Ho as ([m cs] & -> & Ho). simpl in *.
    destruct (annotate_outputs_flags _ (output_activation c) g m cs Ho Hn)
      as (e & He & _).
    by rewrite He.
Qed.

(** With no anchor node in the heap, a run that returns made no write. *)
Lemma assign_specs_no_object c a g g' gf :
  assign_specs c a g = Ok g' →
  only_annotations_differ g gf →
  (∀ n, n ∈ anchor_nodes a → heap g !! n = None) →
  assign_specs c a gf = Ok gf.
Proof.
  intros E Hf Hd.
  destruct (assign_specs_Ok_inv c a g g' E) as (g1 & g2 & E1 & E2 & E3).
  assert (Hnil : ∀ ins spec gi gj,
            annotate_inputs ins spec gi = Ok gj →
            only_annotations_differ g gi →
            (∀ n, n ∈ (fun x : InputAnchor => x.1.1) <$> ins →
                  heap g !! n = None) →
            ins = []).
  { intros [|[[m idx] cs] ins] spec gi gj Ei Hgi Hdi; [done|]. exfalso.
    destruct (annotate_inputs_has_entry _ _ _ _ m Ei) as [[nd Hm] _];
      [rewrite fmap_cons; left|].
    destruct Hgi as [_ Hfr]. specialize (Hfr m).
    rewrite (Hdi m), Hm in Hfr; [done|rewrite fmap_cons; left]. }
  assert (Hsub : ∀ l : list InputAnchor,
            (l = inputs a ∨ l = weights a ∨ l = biases a) →
            ∀ n, n ∈ (fun x : InputAnchor => x.1.1) <$> l → heap g !! n = None).
  { intros l Hl n Hn. apply Hd. unfold anchor_nodes.
    rewrite !fmap_app, !elem_of_app. destruct Hl as [-> | [-> | ->]]; auto. }
  pose proof (annotate_outputs_frame (output a) (output_activation c) g) as F0.
  pose proof (Hnil _ _ _ _ E1 F0 (Hsub _ (or_introl eq_refl))) as Hi.
  rewrite Hi in E1. simpl in E1. injection E1 as <-.
  pose proof (Hnil _ _ _ _ E2 F0 (Hsub _ (or_intror (or_introl eq_refl)))) as Hw.
  rewrite Hw in E2. simpl in E2. injection E2 as <-.
  pose proof (Hnil _ _ _ _ E3 F0 (Hsub _ (or_intror (or_intror eq_refl)))) as Hb.
  unfold assign_specs. rewrite Hi, Hw, Hb. simpl.
  rewrite annotate_outputs_dangling; [done|].
  intros n Hn. destruct Hf as [_ Hfr]. specialize (Hfr n).
  rewrite (Hd n) in Hfr.
  - by destruct (heap gf !! n).
  - unfold anchor_nodes. rewrite elem_of_app. by right.
Qed.

Lemma is_annotated_witness g nodes :
  is_annotated g nodes = true →
  ∃ n e, n ∈ nodes ∧ node_annotation g n = Some e ∧ _annotated e = true.
Proof.
  unfold is_annotated. intros E. apply existsb_exists in E as (n & Hin & Hn).
  apply list_elem_of_In in Hin.
  destruct (node_annotation g n) as [e|] eqn:He; [|done]. by exists n, e.
Qed.

Section Rerun.
Context {P : Type} `{QuantizationPattern P}.
Variable find : GraphModule -> list string -> list Partition.

Lemma annotate_partition_all_annotated (q : CadenceAtenQuantizer P) g p :
  all_annotated g → all_annotated (store (annotate_partition q g p)).
Proof.
  intros Hg. unfold annotate_partition. destruct (negb _); [done|].
  destruct (get_anchors _ _ _); [|done].
  destruct (is_annotated _ _); [done|]. by apply assign_specs_all_annotated.
Qed.

(** A partition that has been through the loop is passed over in any later
    store that kept the entries of the store it left. *)
Lemma rerun_step (q : CadenceAtenQuantizer P) g g' gf p :
  all_annotated g' → reads_wiring_only (pattern q) →
  annotate_partition q g p = Ok g' →
  only_annotations_differ g' gf →
  (∀ n e, node_annotation g' n = Some e → node_annotation gf n = Some e) →
  annotate_partition q gf p = Ok gf.
Proof.
  intros Hall Hq E Hf Hkeep.
  pose proof (annotate_partition_frame q g p) as F. rewrite E in F. simpl in F.
  assert (Fgf : only_annotations_differ g gf)
    by (by eapply only_annotations_differ_trans).
  assert (Sgf : structurally_identical g gf)
    by (by apply only_annotations_differ_structural).
  unfold annotate_partition in *.
  rewrite <- (no_outside_users_agree g gf p Sgf), <- (Hq g gf p Sgf).
  destruct (negb _); [done|].
  destruct (get_anchors (pattern q) g p) as [a|]; [|done].
  destruct (is_annotated g (anchor_nodes a)) eqn:Hann.
  - injection E as <-.
    destruct (is_annotated_witness g _ Hann) as (n & e & Hin & He & Hfl).
    by rewrite (is_annotated_true gf _ n e Hin (Hkeep n e He) Hfl).
  - destruct (decide (Exists (fun n => is_Some (heap g !! n)) (anchor_nodes a)))
      as [Hex|Hnone].
    + apply Exists_exists in Hex as (n & Hin & Hn).
      destruct (assign_specs_anchor_has_entry _ a g g' n E Hin Hn) as [e He].
      by rewrite (is_annotated_true gf _ n e Hin (Hkeep n e He) (Hall n e He)).
    + destruct (is_annotated gf (anchor_nodes a)); [done|].
      eapply assign_specs_no_object; [exact E|done|].
      intros n Hin. destruct (heap g !! n) eqn:Hn; [|done].
      exfalso. apply Hnone, Exists_exists. exists n. by rewrite Hn.
Qed.

Lemma rerun_loop (q : CadenceAtenQuantizer P) ps g gf :
  all_annotated g → reads_wiring_only (pattern q) →
  annotate_loop q ps g = Ok gf →
  ∀ p, p ∈ ps → annotate_partition q gf p = Ok gf.
Proof.
  intros Hall Hq. revert g Hall.
  induction ps as [|p0 ps IH]; intros g Hall E p Hp.
  { by apply elem_of_nil in Hp. }
  simpl in E.
  pose proof (annotate_partition_all_annotated q g p0 Hall) as Hall'.
  destruct (annotate_partition q g p0) as [g'|e g'] eqn:E0; simpl in *; [|done].
  apply elem_of_cons in Hp as [->|Hp]; [|by eapply IH].
  pose proof (annotate_loop_frame q ps g') as F. rewrite E in F.
  eapply rerun_step; [exact Hall'|done|exact E0|exact F|].
  intros n e He.
  pose proof (annotate_loop_keeps_annotated q ps g' n e He (Hall' n e He)) as K.
  by rewrite E in K.
Qed.

Lemma annotate_loop_all_skipped (q : CadenceAtenQuantizer P) ps g :
  (∀ p, p ∈ ps → annotate_partition q g p = Ok g) → annotate_loop q ps g = Ok g.
Proof.
  induction ps as [|p ps IH]; intros Hps; [done|]. simpl.
  rewrite Hps by left. simpl. apply IH. intros p' Hp'. apply Hps. by right.
Qed.

(** X2: running [annotate] again on its own result changes nothing.  For
    a graph whose entries, if any, have the annotated flag, and a finder
    and pattern that look at kinds and wiring only, a pass that returned
    normally leaves a graph on which the same annotator returns that graph
    unchanged: every partition it wrote for now has an annotated anchor,
    and every partition it passed over is passed over again. *)
Theorem annotate_rerun_is_noop (q : CadenceAtenQuantizer P) g g1 :
  all_annotated g →
  reads_wiring_only_find find → reads_wiring_only (pattern q) →
  annotate find q g = Ok g1 →
  annotate find q g1 = Ok g1.
Proof.
  intros Hall Hfind Hq E. unfold annotate in *.
  pose proof (annotate_loop_frame q (find g (partition_types (pattern q))) g)
    as F.
  rewrite E in F. simpl in F.
  rewrite <- (Hfind g g1) by (by apply only_annotations_differ_structural).
  apply annotate_loop_all_skipped. by eapply rerun_loop.
Qed.
End Rerun.

(** ** Concrete runs of the further properties *)

Lemma addmm_graph_all_annotated : all_annotated addmm_graph.
Proof.
  intros n a Hn. unfold node_annotation in Hn.
  destruct (node_ref addmm_graph n) as [o|]; [|done].
  simpl in Hn. by rewrite lookup_empty in Hn.
Qed.

Lemma addmm_graph_anchors g' p anchors :
  only_annotations_differ addmm_graph g' →
  p ∈ chain_finder addmm_graph ["mm"; "add"] →
  addmm_get_anchors g' p = Some anchors →
  anchors = addmm_anchors.
Proof.
  intros Hf Hp Ha. rewrite addmm_graph_partitions in Hp.
  apply list_elem_of_singleton in Hp. subst p.
  unfold addmm_get_anchors in Ha. simpl in Ha.
  rewrite <- (only_annotations_differ_args addmm_graph g') in Ha by done.
  vm_compute in Ha. by injection Ha as <-.
Qed.

Lemma branching_graph_partitions :
  chain_finder branching_graph ["mm"; "add"] = [addmm_partition].
Proof. vm_compute. reflexivity. Qed.

(** In [branching_graph] the one partition has an outside user. *)
Lemma annotate_skips_ineligible_witness :
  annotate chain_finder addmm_quantizer branching_graph = Ok branching_graph.
Proof.
  apply (annotate_skips_ineligible chain_finder addmm_quantizer branching_graph).
  intros p Hp. change (p ∈ chain_finder branching_graph ["mm"; "add"]) in Hp.
  rewrite branching_graph_partitions in Hp.
  apply list_elem_of_singleton in Hp. subst p. left. vm_compute. reflexivity.
Defined.

(** The addmm annotator twice on [addmm_graph]. *)
Lemma annotate_rerun_is_noop_witness :
  annotate chain_finder addmm_quantizer
    (store (annotate chain_finder addmm_quantizer addmm_graph))
  = Ok (store (annotate chain_finder addmm_quantizer addmm_graph)).
Proof.
  apply (annotate_rerun_is_noop chain_finder addmm_quantizer addmm_graph).
  - apply addmm_graph_all_annotated.
  - intros g1 g2 sig Hs. by apply chain_finder_agree.
  - intros g1 g2 p Hs. by apply addmm_get_anchors_agree.
  - vm_compute. reflexivity.
Defined.

(** The add node of [addmm_graph]: its first argument is not addressed. *)
Lemma accepted_output_anchor_entry_witness :
  ∃ g' e, annotate_partition addmm_quantizer addmm_graph addmm_partition = Ok g'
          ∧ node_annotation g' 5%positive = Some e
          ∧ output_qspec e = Some (QSpec act_qspec)
          ∧ _annotated e = true
          ∧ input_qspec_map e !! ArgNode 4 = None.
Proof.
  destruct (accepted_output_anchor_entry addmm_quantizer addmm_graph
              addmm_partition addmm_anchors 5%positive [])
    as (g' & e & E & He & Ho & Hf & Hk).
  - vm_compute. reflexivity.
  - vm_compute. reflexivity.
  - vm_compute. reflexivity.
  - repeat constructor; vm_compute; eauto.
  - repeat constructor. by intros Hin%elem_of_nil.
  - left.
  - vm_compute. eauto.
  - exists g', e. split; [done|]. split; [done|]. split; [done|].
    split; [done|]. apply Hk. intros x Hx [Hn Hpy].
    repeat (apply elem_of_cons in Hx as [->|Hx]; [by vm_compute in Hn, Hpy|]).
    by apply elem_of_nil in Hx.
Defined.




(** mm has two arguments; the pattern asks for a third. *)
Lemma index_error_leaves_partial_writes_witness :
  ∃ g1, annotate_partition (mkQuantizer misindexed_addmm_pattern _default_qconfig)
          addmm_graph addmm_partition = Raise IndexError g1
        ∧ annotate_loop (mkQuantizer misindexed_addmm_pattern _default_qconfig)
            [addmm_partition] addmm_graph = Raise IndexError g1
        ∧ annotate_inputs [] (Some act_qspec)
            (annotate_outputs [(5%positive, [])] (Some act_qspec) addmm_graph)
          = Ok g1
        ∧ ∀ out cs, (out, cs) ∈ [((5%positive, []) : OutputAnchor)] →
                    is_Some (heap addmm_graph !! out) →
                    ∃ e, node_annotation g1 out = Some e ∧ _annotated e = true.
Proof.
  apply (index_error_leaves_partial_writes
           (mkQuantizer misindexed_addmm_pattern _default_qconfig)
           addmm_graph addmm_partition
           {| inputs := [(4%positive, 2, [])]; weights := [(4%positive, 1, [])];
              biases := []; output := [(5%positive, [])] |}
           [] (4%positive, 2, []) [] []).
  - vm_compute. reflexivity.
  - reflexivity.
  - vm_compute. reflexivity.
  - reflexivity.
  - constructor.
  - vm_compute. reflexivity.
Defined.

(** Node 1 of [addmm_graph] is a producer only. *)
Lemma annotate_leaves_non_anchor_nodes_witness :
  node_annotation (store (annotate chain_finder addmm_quantizer addmm_graph))
    1%positive
  = node_annotation addmm_graph 1%positive.
Proof.
  apply (annotate_leaves_non_anchor_nodes chain_finder addmm_quantizer
           addmm_graph 1%positive).
  intros g' p anchors Hf Hp Ha m Hin.
  rewrite (addmm_graph_anchors g' p anchors Hf Hp Ha) in Hin.
  split; [|by intros (o & Ho & _); vm_compute in Ho].
  intros ->. vm_compute in Hin.
  repeat (apply elem_of_cons in Hin as [Hin|Hin]; [done|]).
  by apply elem_of_nil in Hin.
Defined.

(** [addmm_graph] starts without entries. *)
Lemma annotate_keeps_all_annotated_witness :
  all_annotated (store (annotate chain_finder addmm_quantizer addmm_graph)).
Proof.
  apply (annotate_keeps_all_annotated chain_finder addmm_quantizer addmm_graph).
  apply addmm_graph_all_annotated.
Defined.

(** Node 3 of [stale_graph] holds an entry before the pass. *)
Lemma annotate_never_removes_entry_witness :
  is_Some (node_annotation
             (store (annotate chain_finder add_quantizer stale_graph)) 3%positive).
Proof.
  apply (annotate_never_removes_entry chain_finder add_quantizer stale_graph
           3%positive).
  vm_compute. eauto.
Defined.

(** ** Merging at the level of a partition, and the range of an index *)

Section Merging.
Context {P : Type} `{QuantizationPattern P}.

(** X11: a node that an accepted partition does not list in its output
    bucket keeps, through all the partition's writes, the output spec and
    the flag of the entry it held before, and every key of that entry's
    input map; keys that no anchor of the partition writes to, through the
    node itself or through a node that referred to the same record before
    the partition was processed, keep their value.  An entry whose flag is
    unset therefore stays unflagged when the node is only an input, weight
    or bias anchor. *)
Theorem non_output_anchor_entry_merged
    (q : CadenceAtenQuantizer P) g p a n e :
  no_outside_users g p = true →
  get_anchors (pattern q) g p = Some a →
  is_annotated g (anchor_nodes a) = false →
  Forall (valid_anchor g) (inputs a ++ weights a ++ biases a) →
  node_annotation g n = Some e → n ∉ fst <$> output a →
  ∃ g' e', annotate_partition q g p = Ok g'
           ∧ node_annotation g' n = Some e'
           ∧ output_qspec e' = output_qspec e
           ∧ _annotated e' = _annotated e
           ∧ (∀ k, is_Some (input_qspec_map e !! k) →
                   is_Some (input_qspec_map e' !! k))
           ∧ ∀ k, (∀ x : InputAnchor,
                     x ∈ inputs a ++ weights a ++ biases a →
                     ¬ writes_to g n k x) →
                  input_qspec_map e' !! k = input_qspec_map e !! k.
Proof.
  intros Hno Ha Hann Hv He Hout.
  rewrite (annotate_partition_accepted q g p a) by done.
  destruct (assign_specs_stages (quantization_config q) a g Hv)
    as (g1 & g2 & g3 & E1 & E2 & E3 & E & F0 & F1 & F2).
  pose proof (annotate_outputs_other (output a)
                (output_activation (quantization_config q)) g n Hout) as H0.
  rewrite He in H0.
  destruct (stage_merge _ _ g _ _ n _ F0 E1 H0)
    as (e1 & H1 & O1 & A1 & K1 & U1).
  destruct (stage_merge _ _ g _ _ n _ F1 E2 H1)
    as (e2 & H2 & O2 & A2 & K2 & U2).
  destruct (stage_merge _ _ g _ _ n _ F2 E3 H2)
    as (e3 & H3 & O3 & A3 & K3 & U3).
  exists g3, e3. split; [done|]. split; [done|].
  split; [by rewrite O3, O2, O1|]. split; [by rewrite A3, A2, A1|]. split.
  - intros k Hk. by apply K3, K2, K1.
  - intros k Hna. rewrite U3, U2, U1; [done|..]; intros x Hx; apply Hna;
      rewrite !elem_of_app; auto.
Qed.
End Merging.

Lemma py_index_is_Some {A} (l : list A) (idx : Z) :
  is_Some (py_index l idx)
  ↔ - Z.of_nat (length l) ≤ idx < Z.of_nat (length l).
Proof.
  unfold py_index. destruct (0 <=? idx) eqn:E0.
  - apply Z.leb_le in E0. rewrite lookup_lt_is_Some. lia.
  - apply Z.leb_gt in E0. destruct (- Z.of_nat (length l) <=? idx) eqn:E1.
    + apply Z.leb_le in E1. rewrite lookup_lt_is_Some. lia.
    + apply Z.leb_gt in E1. split; [by intros [? ?]|lia].
Qed.

(** X12: the index of an anchor is used as Python indexes a sequence: it
    is in range, so that no [IndexError] is raised for it, exactly when it
    lies between minus the number of arguments of the node and that number
    less one; a negative index names the argument counted from the end. *)
Theorem anchor_index_range g n idx cs :
  (valid_anchor g (n, idx, cs)
   ↔ - Z.of_nat (length (node_args g n)) ≤ idx
     < Z.of_nat (length (node_args g n)))
  ∧ (- Z.of_nat (length (node_args g n)) ≤ idx < 0 →
     py_index (node_args g n) idx
     = py_index (node_args g n) (Z.of_nat (length (node_args g n)) + idx)).
Proof.
  split; [apply py_index_is_Some|].
  intros [Hlo Hhi]. unfold py_index.
  destruct (0 <=? idx) eqn:E0; [apply Z.leb_le in E0; lia|].
  destruct (- Z.of_nat (length (node_args g n)) <=? idx) eqn:E1;
    [|apply Z.leb_gt in E1; lia].
  destruct (0 <=? Z.of_nat (length (node_args g n)) + idx) eqn:E2;
    [done|apply Z.leb_gt in E2; lia].
Qed.

(** Node 4 of [shared_graph] refers to the record of node 3, which the
    partition uses as the consumer of its first argument only: the key of
    the second argument keeps its value in the record node 4 sees. *)
Lemma non_output_anchor_entry_merged_witness :
  ∃ g' e', annotate_partition
             (mkQuantizer (input_only_pattern "add") _default_qconfig)
             shared_graph {| part_nodes := [3%positive]; part_output := 3%positive |}
           = Ok g'
           ∧ node_annotation g' 4%positive = Some e'
           ∧ output_qspec e' = Some (QSpec wgt_qspec)
           ∧ _annotated e' = false
           ∧ input_qspec_map e' !! ArgNode 2
             = input_qspec_map stale_annotation !! ArgNode 2.
Proof.
  destruct (non_output_anchor_entry_merged
              (mkQuantizer (input_only_pattern "add") _default_qconfig)
              shared_graph
              {| part_nodes := [3%positive]; part_output := 3%positive |}
              {| inputs := [(3%positive, 0, [])]; weights := [];
                 biases := []; output := [] |}
              4%positive stale_annotation)
    as (g' & e' & E & He & Ho & Hf & _ & Hk).
  - vm_compute. reflexivity.
  - reflexivity.
  - vm_compute. reflexivity.
  - repeat constructor; vm_compute; eauto.
  - vm_compute. reflexivity.
  - by intros Hin%elem_of_nil.
  - exists g', e'. split; [done|]. split; [done|]. split; [done|].
    split; [done|]. apply Hk. intros x Hx [_ Hpy].
    apply list_elem_of_singleton in Hx. subst x. by vm_compute in Hpy.
Defined.

(** The index -1 on mm of [addmm_graph] names its second argument. *)
Lemma anchor_index_range_witness :
  valid_anchor addmm_graph (4%positive, -1, [])
  ∧ py_index (node_args addmm_graph 4%positive) (-1) = Some (ArgNode 2).
Proof.
  destruct (anchor_index_range addmm_graph 4%positive (-1) []) as [Hv Hneg].
  assert (Hl : length (node_args addmm_graph 4%positive) = 2%nat)
    by (vm_compute; reflexivity).
  rewrite Hl in Hv, Hneg. split.
  - apply Hv. lia.
  - rewrite Hneg by lia. vm_compute. reflexivity.
Defined.
